(** * Tambula ticket service: a shallow embedding of [src/app.js]

    The service is one Express application: registration and login over a
    user collection, a bearer-token gate, and two ticket routes around the
    generator [generateTicket].  The embedding keeps the shape of the
    JavaScript: arrays are lists read and updated by index, the two loops
    of the generator are folds over their index ranges, and everything the
    process takes from outside (Math.random, Date.now, the libraries, the
    database) is a field of an explicit environment. *)

From Stdlib Require Import QArith Qround Qabs Qpower Lqa Ascii String.
From stdpp Require Import base numbers list strings.

Set Warnings "-register-all".

Open Scope nat_scope.

(** ** JavaScript built-ins used by the source *)

(** [Math.floor(x)].  Numbers are rationals here, and the generator's
    product [Math.random() * n] is taken exactly: rounded to a double it
    can fall in the next slot (at the double nearest 0.7 and n = 10 the
    rounded product is 7 and the exact one is below it).  What the
    properties of the generator use of the index is only that it lies in
    0 .. n-1 when the sample lies in [0, 1), which holds of both (for the
    rounded product it is proved among the further properties). *)
Definition Math_floor (x : Q) : Z := Qfloor x.

(** [arr.splice(start, 1)]: the element removed (if any) and the array that
    is left.  A negative [start] counts from the end, a [start] beyond the
    end is clamped to the length, and then nothing is removed and
    [splice(...)[0]] is [undefined]. *)
Definition splice1 {A} (arr : list A) (start : Z) : option A * list A :=
  let len := Z.of_nat (length arr) in
  let actualStart := if (start <? 0)%Z then Z.max (len + start) 0 else Z.min start len in
  let i := Z.to_nat actualStart in
  (arr !! i, delete i arr).

(** ** The ticket generator *)

(** A cell of [ticketData]: a number, the marker ['x'], or [undefined]
    (what [splice(...)[0]] yields when nothing was removed). *)
Inductive Cell :=
  | Num (n : nat)
  | Blank
  | Undefined.

Abbreviation Grid := (list (list Cell)).

(** The generator's mutable locals: the nine column pools and the number of
    [Math.random()] calls made so far by the process. *)
Record GenState := mkGen { columns : list (list nat); calls : nat }.

(** [for (let i = 1; i <= 90; i++) columns[Math.floor((i-1)/10)].push(i)];
    the column index stays below 9, so the update is always in range. *)
Definition pushNumber (cols : list (list nat)) (i : nat) : list (list nat) :=
  let column := (i - 1) / 10 in
  alter (λ c, c ++ [i]) column cols.

Definition initColumns : list (list nat) :=
  foldl pushNumber (replicate 9 []) (seq 1 90).

(** The body of the inner loop, at column [j]. *)
Definition drawCell (rnd : nat → Q) (j : nat) (st : GenState) : Cell * GenState :=
  let col := default [] (columns st !! j) in
  if 0 <? length col then
    let randomIndex := Math_floor (rnd (calls st) * inject_Z (Z.of_nat (length col))) in
    let '(removed, rest) := splice1 col randomIndex in
    (from_option Num Undefined removed,
     mkGen (<[j := rest]> (columns st)) (S (calls st)))
  else (Blank, st).

Definition pushCell (rnd : nat → Q) (acc : list Cell * GenState) (j : nat)
  : list Cell * GenState :=
  let '(cell, st) := drawCell rnd j acc.2 in (acc.1 ++ [cell], st).

(** [for (let j = 0; j < 9; j++) { ... row.push(...) }] *)
Definition fillRow (rnd : nat → Q) (st : GenState) : list Cell * GenState :=
  foldl (pushCell rnd) ([], st) (seq 0 9).

Definition pushRow (rnd : nat → Q) (acc : Grid * GenState) (i : nat) : Grid * GenState :=
  let '(row, st) := fillRow rnd acc.2 in (acc.1 ++ [row], st).

(** [generateTicket()], started when [k] random numbers have been consumed:
    the grid and the number of random numbers consumed afterwards. *)
Definition generateTicket (rnd : nat → Q) (k : nat) : Grid * nat :=
  let '(ticketData, st) := foldl (pushRow rnd) ([], mkGen initColumns k) (seq 0 3) in
  (ticketData, calls st).

Definition isNum (c : Cell) : bool := match c with Num _ => true | _ => false end.
Definition isBlank (c : Cell) : bool := match c with Blank => true | _ => false end.

(** The cell at row [r], column [c] of a grid. *)
Definition cellAt (g : Grid) (r c : nat) : option Cell := g !! r ≫= (.!! c).

(** What the specification says of a random sample: a value in [0, 1). *)
Definition unitSample (x : Q) : Prop := (0 <= x)%Q ∧ (x < 1)%Q.

(** The number held by a cell, if it holds one. *)
Definition cellNum (c : Cell) : option nat :=
  match c with Num n => Some n | _ => None end.

(** The numbers of a sequence of cells, in order. *)
Definition nums (cells : list Cell) : list nat := omap cellNum cells.

Definition countNum (row : list Cell) : nat := length (filter (λ c, isNum c) row).
Definition countBlank (row : list Cell) : nat := length (filter (λ c, isBlank c) row).

(** The range of column [c] as the source computes it: the numbers [i]
    with [Math.floor((i - 1) / 10) = c]. *)
Definition columnRange (c n : nat) : Prop := 10 * c + 1 ≤ n ≤ 10 * c + 10.

(** The range of column [c] as the specification words it: 1-9 for column
    0, 10c+1 .. 10c+10 for columns 1 to 7, 81-90 for column 8. *)
Definition specColumnRange (c n : nat) : Prop :=
  (c = 0 ∧ 1 ≤ n ≤ 9) ∨ (1 ≤ c ≤ 7 ∧ 10 * c + 1 ≤ n ≤ 10 * c + 10) ∨ (c = 8 ∧ 81 ≤ n ≤ 90).

(** Some concrete random sources: a constant one, and one that cycles
    through 0/8, 1/8, ..., 7/8 (all of them doubles, and their products
    with a pool length are exact). *)
Definition constSource (x : Q) : nat → Q := λ _, x.
Definition cycleSource : nat → Q := λ k, (Z.of_nat (k mod 8) # 8)%Q.

(** Every sample of the source lies in [0, 1). *)
Definition unitSource (rnd : nat → Q) : Prop := ∀ k, unitSample (rnd k).

(** One visit of the inner loop to a column pool: the pool before, the
    cell written and the pool after.  [U] stands for the assumption that
    every random sample lies in [0, 1). *)
Inductive Draw (U : Prop) : list nat → Cell → list nat → Prop :=
  | Draw_blank : Draw U [] Blank []
  | Draw_pick col i :
      col ≠ [] → (U → i < length col) →
      Draw U col (from_option Num Undefined (col !! i)) (delete i col).

(** Successive visits to the same pool, one per row. *)
Inductive Draws (U : Prop) : list nat → list Cell → list nat → Prop :=
  | Draws_nil col : Draws U col [] col
  | Draws_snoc col cells col' c col'' :
      Draws U col cells col' → Draw U col' c col'' →
      Draws U col (cells ++ [c]) col''.

(** ** Numbers and strings of the JavaScript runtime *)

(** A JavaScript number: doubles are rationals, plus the three special
    values a request body or a coercion can produce. *)
Inductive Number :=
  | NaN
  | Infinity
  | NegInfinity
  | Finite (q : Q).

Definition Qltb (x y : Q) : bool := negb (Qle_bool y x).

Definition base36Digits : string := "0123456789abcdefghijklmnopqrstuvwxyz".

Definition digitChar (d : Z) : ascii :=
  default "0"%char (String.get (Z.to_nat d) base36Digits).

(** The buffer V8 gives [Number.prototype.toString(radix)] holds 1100
    characters on each side of the point; the digit loops below stop there
    at the latest. *)
Definition kBufferHalf : nat := 1100.

(** Integer part, least significant digit first:
    [do { r = integer % 36; push r; integer = (integer - r) / 36 } while (integer > 0)] *)
Fixpoint integerDigits (fuel : nat) (integer : Z) (acc : string) : string :=
  match fuel with
  | 0 => acc
  | S fuel' =>
      let remainder := (integer mod 36)%Z in
      let acc := String (digitChar remainder) acc in
      let integer := ((integer - remainder) / 36)%Z in
      if (0 <? integer)%Z then integerDigits fuel' integer acc else acc
  end.

(** [floor(log2 x)] for a positive rational. *)
Definition floorLog2 (x : Q) : Z :=
  let e0 := (Z.log2 (Qnum x) - Z.log2 (Zpos (Qden x)))%Z in
  if Qle_bool (Qpower 2 e0) x then e0 else (e0 - 1)%Z.

(** The nearest integer, ties to the even one. *)
Definition roundHalfEven (y : Q) : Z :=
  let n := Qfloor y in
  let r := (y - inject_Z n)%Q in
  if Qltb r (1 # 2) then n
  else if Qltb (1 # 2) r then (n + 1)%Z
  else if Z.even n then n else (n + 1)%Z.

(** The exponent of the last place of the doubles next to a positive
    [x]: 53 significant bits, and nothing finer than 2^-1074. *)
Definition lastPlace (x : Q) : Z := Z.max (floorLog2 x - 52) (-1074).

(** The double nearest to [x], ties to even: what an operation on doubles
    returns when its exact result is [x] (below the overflow threshold).
    The result is given in lowest terms. *)
Definition toDouble (x : Q) : Q :=
  if Qeq_bool x 0 then 0%Q
  else
    let ulp := Qpower 2 (lastPlace (Qabs x)) in
    let r := (inject_Z (roundHalfEven (Qabs x / ulp)) * ulp)%Q in
    Qred (if Qltb x 0 then (- r)%Q else r).

(** Half the distance from a double to the next one, and at least the
    smallest positive double: the precision up to which fraction digits
    are produced. *)
Definition halfUlp (x : Q) : Q :=
  if Qle_bool x 0 then Qpower 2 (-1074)
  else Qpower 2 (Z.max (floorLog2 x - 53) (-1074)).

(** Rounding the last digit up, with carry through trailing [z] digits;
    digits are held last-first, and the flag tells that the carry reached
    the integer part. *)
Fixpoint roundUp (revDigits : list Z) : list Z * bool :=
  match revDigits with
  | [] => ([], true)
  | d :: rest => if (d + 1 <? 36)%Z then ((d + 1)%Z :: rest, false) else roundUp rest
  end.

(** Fraction digits, most significant first, produced until the remainder
    drops below the precision [delta] (scaled along).  Every operation is
    one on doubles, as in V8:
    [fraction *= radix; delta *= radix; digit = (int) fraction;
     fraction -= digit; ... fraction + delta > 1]. *)
Fixpoint fractionDigits (fuel : nat) (fraction delta : Q) (revDigits : list Z)
  : list Z * bool :=
  match fuel with
  | 0 => (rev revDigits, false)
  | S fuel' =>
      let fraction := toDouble (fraction * 36) in
      let delta := toDouble (delta * 36) in
      let digit := Qfloor fraction in
      let revDigits := digit :: revDigits in
      let fraction := toDouble (fraction - inject_Z digit) in
      if (Qltb (1 # 2) fraction || (Qeq_bool fraction (1 # 2) && Z.odd digit))
         && Qltb 1 (toDouble (fraction + delta))
      then let '(ds, carry) := roundUp revDigits in (rev ds, carry)
      else if Qle_bool delta fraction then fractionDigits fuel' fraction delta revDigits
      else (rev revDigits, false)
  end.

Definition digitsString (ds : list Z) : string :=
  string_of_list_ascii (digitChar <$> ds).

(** [value.toString(36)] for a finite number, after V8's
    DoubleToRadixCString, for a double [value] of magnitude below 2^53
    (beyond, V8 pads the integer part with zeros). *)
Definition Number_toString36 (value : Q) : string :=
  let negative := Qltb value 0 in
  let value := Qabs value in
  let integer := Qfloor value in
  let fraction := (value - inject_Z integer)%Q in
  let delta := halfUlp value in
  let '(digits, carry) :=
    if Qle_bool delta fraction then fractionDigits kBufferHalf fraction delta []
    else ([], false) in
  let integer := if carry then (integer + 1)%Z else integer in
  ((if negative then "-" else EmptyString)
   +:+ integerDigits kBufferHalf integer EmptyString
   +:+ match digits with [] => EmptyString | _ => "." +:+ digitsString digits end)%string.

(** [s.substr(start, length)] for non-negative arguments. *)
Definition substr (start len : nat) (s : string) : string := String.substring start len s.

(** Characters the regular-expression class [\s] matches, among the code
    units below 256: tab, line feed, vertical tab, form feed, carriage
    return, space and no-break space. *)
Definition isSpace (c : ascii) : bool :=
  let n := nat_of_ascii c in
  (9 <=? n) && (n <=? 13) || (n =? 32) || (n =? 160).

Fixpoint trimStart (s : string) : string :=
  match s with
  | String c s' => if isSpace c then trimStart s' else s
  | EmptyString => EmptyString
  end.

(** The sanitizer [trim()]: whitespace removed at both ends. *)
Definition trim (s : string) : string :=
  String.rev (trimStart (String.rev (trimStart s))).

(** The value of a character as a digit: 0-9, then the letters in either
    case from 10 on. *)
Definition radixDigit (c : ascii) : option Z :=
  let n := Z.of_nat (nat_of_ascii c) in
  if (48 <=? n)%Z && (n <=? 57)%Z then Some (n - 48)%Z
  else if (97 <=? n)%Z && (n <=? 122)%Z then Some (n - 87)%Z
  else if (65 <=? n)%Z && (n <=? 90)%Z then Some (n - 55)%Z
  else None.

(** The integer a string of digits denotes in base [radix]; none when a
    character is not a digit of that base. *)
Fixpoint numeral (radix : Z) (acc : Z) (s : string) : option Z :=
  match s with
  | EmptyString => Some acc
  | String c s' =>
      match radixDigit c with
      | Some d => if (d <? radix)%Z then numeral radix (acc * radix + d)%Z s' else None
      | None => None
      end
  end.

Definition isDigit (c : ascii) : bool :=
  match radixDigit c with Some d => (d <? 10)%Z | None => false end.

(** The leading decimal digits of a string, and what follows them. *)
Fixpoint leadingDigits (s : string) : string * string :=
  match s with
  | String c s' =>
      if isDigit c then let '(ds, rest) := leadingDigits s' in (String c ds, rest)
      else (EmptyString, s)
  | EmptyString => (EmptyString, EmptyString)
  end.

(** The Number value of an exact mathematical value: the nearest double,
    and an infinity from 2^1024 on. *)
Definition roundNumber (q : Q) : Number :=
  let r := toDouble q in
  if Qle_bool (Qpower 2 1024) r then Infinity
  else if Qle_bool r (- Qpower 2 1024) then NegInfinity
  else Finite r.

(** [ExponentPart], or nothing, up to the end of the string. *)
Definition exponentPart (s : string) : option Z :=
  match s with
  | EmptyString => Some 0%Z
  | String c s' =>
      if Ascii.eqb c "e" || Ascii.eqb c "E" then
        let '(negative, ds) :=
          match s' with
          | String "-" ds => (true, ds)
          | String "+" ds => (false, ds)
          | _ => (false, s')
          end in
        match ds with
        | EmptyString => None
        | _ => (λ e, if negative : bool then (- e)%Z else e) <$> numeral 10 0 ds
        end
      else None
  end.

(** [StrUnsignedDecimalLiteral]: Infinity, or digits with an optional
    point and an optional exponent, at least one digit around the point. *)
Definition unsignedDecimal (s : string) : Number :=
  if String.eqb s "Infinity" then Infinity
  else
    let '(whole, rest) := leadingDigits s in
    let '(fraction, rest) :=
      match rest with
      | String "." rest' => leadingDigits rest'
      | _ => (EmptyString, rest)
      end in
    if String.length whole + String.length fraction =? 0 then NaN
    else
      match numeral 10 0 (whole +:+ fraction), exponentPart rest with
      | Some mantissa, Some exponent =>
          roundNumber (inject_Z mantissa
                       * Qpower 10 (exponent - Z.of_nat (String.length fraction)))
      | _, _ => NaN
      end.

Definition negate (y : Number) : Number :=
  match y with
  | NaN => NaN
  | Infinity => NegInfinity
  | NegInfinity => Infinity
  | Finite q => Finite (- q)
  end.

Definition radixPrefix (c : ascii) : option Z :=
  if Ascii.eqb c "x" || Ascii.eqb c "X" then Some 16%Z
  else if Ascii.eqb c "o" || Ascii.eqb c "O" then Some 8%Z
  else if Ascii.eqb c "b" || Ascii.eqb c "B" then Some 2%Z
  else None.

(** [StringToNumber(s)], for strings of code units below 256: white space
    is dropped at both ends, the empty string is 0, a literal with a radix
    prefix takes no sign, and anything that is no numeric literal is NaN. *)
Definition stringToNumber (s : string) : Number :=
  let s := trim s in
  let decimal :=
    match s with
    | EmptyString => Finite 0
    | String "-" s' => negate (unsignedDecimal s')
    | String "+" s' => unsignedDecimal s'
    | _ => unsignedDecimal s
    end in
  match s with
  | String "0" (String c digits) =>
      match radixPrefix c, digits with
      | Some radix, String _ _ =>
          match numeral radix 0 digits with
          | Some n => roundNumber (inject_Z n)
          | None => NaN
          end
      | Some _, EmptyString => NaN
      | None, _ => decimal
      end
  | _ => decimal
  end.

(** [s.split(sep)] on a one-character separator. *)
Fixpoint splitOn (sep : ascii) (s : string) : list string :=
  match s with
  | EmptyString => [EmptyString]
  | String c s' =>
      if Ascii.eqb c sep then EmptyString :: splitOn sep s'
      else match splitOn sep s' with
           | piece :: pieces => String c piece :: pieces
           | [] => [String c EmptyString]
           end
  end.

(** A value of a parsed JSON body. *)
Inductive JSON :=
  | JNull
  | JBool (b : bool)
  | JNum (x : Number)
  | JStr (s : string)
  | JArr (items : list JSON)
  | JObj (fields : list (string * JSON)).

(** Converting a parsed JSON value to a primitive fails with a TypeError
    exactly when an object in it carries an own [toString] property: the
    property is data, not a function, and the inherited [valueOf] returns
    the object itself. *)
Fixpoint throwsOnToPrimitive (v : JSON) : bool :=
  match v with
  | JObj fields => existsb (λ kv, String.eqb kv.1 "toString") fields
  | JArr items => existsb throwsOnToPrimitive items
  | _ => false
  end.

(** [ToNumber(ToString(v))] for an element [v] of an array, and
    [ToNumber] of an array through [join(",")]: the empty array gives the
    empty string and 0, a single element gives what its own string gives,
    and a string with a comma in it is no numeric literal. *)
Fixpoint elementNumber (stringToNumber : string → Number) (v : JSON) : Number :=
  match v with
  | JNull => Finite 0
  | JBool _ => NaN
  | JNum x => x
  | JStr s => stringToNumber s
  | JArr [] => Finite 0
  | JArr [x] => elementNumber stringToNumber x
  | JArr _ => NaN
  | JObj _ => NaN
  end.

(** The outcome of a computation that may throw. *)
Inductive Outcome (A : Type) :=
  | Returned (a : A)
  | Thrown.
Arguments Returned {A} a.
Arguments Thrown {A}.

(** [ToNumber(v)] for the value of a body property ([None] is
    [undefined]). *)
Definition ToNumber (stringToNumber : string → Number) (v : option JSON) : Outcome Number :=
  match v with
  | None => Returned NaN
  | Some v =>
      if throwsOnToPrimitive v then Thrown
      else Returned
             match v with
             | JBool b => Finite (if b then 1 else 0)
             | _ => elementNumber stringToNumber v
             end
  end.

(** [i < y] for an integer-valued [i]. *)
Definition lessThan (i : Z) (y : Number) : bool :=
  match y with
  | NaN => false
  | Infinity => true
  | NegInfinity => false
  | Finite q => Qltb (inject_Z i) q
  end.

(** [i++] on a double holding an integer: exact up to 2^53, where adding
    one rounds back to the same value. *)
Definition increment (i : Z) : Z :=
  if (i <? 2 ^ 53)%Z then (i + 1)%Z else i.

(** ** Data model *)

(** A document of the [User] collection. *)
Record User := mkUser {
  username : string;
  password : string;
  email : string;
  name : string;
}.

(** A document of the [Ticket] collection, and an element of the array
    that POST /tickets answers with. *)
Record Ticket := mkTicket {
  ticketId : string;
  ticketData : Grid;
}.

(** Everything the process takes from outside.  The random source, the
    clock and the database's failures are given call by call; the library
    functions are given as functions. *)
Record Env := mkEnv {
  Math_random : nat → Q;
  Date_now : nat → Z;
  storeFails : nat → bool;
  bcrypt_hash : string → string;
  bcrypt_compare : string → string → bool;
  jwt_sign : string → string → string;
  jwt_verify : string → string → option (option string);
  isEmail : string → bool;
  normalizeEmail : string → string;
  StringToNumber : string → Number;
  Ticket_page : option string → option string → list Ticket → option (list Ticket);
}.

(** The state of the process and of its database: the two collections in
    insertion order, and how many random numbers, clock readings and
    database operations have been used. *)
Record World := mkWorld {
  users : list User;
  tickets : list Ticket;
  randoms : nat;
  clocks : nat;
  dbOps : nat;
}.

(** The body of a response. *)
Inductive Body :=
  | Message (message : string)
  | Errors (errors : list string)
  | Token (token : string)
  | TicketList (docs : list Ticket).

Record Response := mkResponse { status : nat; body : Body }.

(** ** A monad for handler bodies: state, and exceptions for [try]/[catch] *)

Definition M (A : Type) : Type := World → Outcome A * World.

#[global] Instance M_ret : MRet M := λ A a w, (Returned a, w).

#[global] Instance M_bind : MBind M := λ A B f m w,
  match m w with
  | (Returned a, w') => f a w'
  | (Thrown, w') => (Thrown, w')
  end.

(** [try { m } catch (error) { handler }], where the handler only answers. *)
Definition tryCatch {A} (m : M A) (handler : A) : World → A * World :=
  λ w, match m w with
       | (Returned a, w') => (a, w')
       | (Thrown, w') => (handler, w')
       end.

(** An awaited database operation: it is counted, and it rejects when the
    environment says so. *)
Definition countOp (w : World) : World :=
  mkWorld (users w) (tickets w) (randoms w) (clocks w) (S (dbOps w)).

Definition dbCall {A} (env : Env) (op : World → Outcome A * World) : M A :=
  λ w, if storeFails env (dbOps w) then (Thrown, countOp w) else op (countOp w).

(** ** The collections *)

(** [User.findOne({ username })] *)
Definition User_findOne (env : Env) (uname : string) : M (option User) :=
  dbCall env (λ w,
    (Returned (List.find (λ u, String.eqb (username u) uname) (users w)), w)).

(** [User.findOne({ $or: [{ username }, { email }] })] *)
Definition User_findOne_or (env : Env) (uname mail : string) : M (option User) :=
  dbCall env (λ w,
    (Returned (List.find (λ u, String.eqb (username u) uname || String.eqb (email u) mail)
                         (users w)), w)).

(** [User.create(doc)]; the schema declares [username] and [email] unique,
    and the insert is rejected when either is taken. *)
Definition User_create (env : Env) (doc : User) : M User :=
  dbCall env (λ w,
    if existsb (λ u, String.eqb (username u) (username doc) || String.eqb (email u) (email doc))
               (users w)
    then (Thrown, w)
    else (Returned doc,
          mkWorld (users w ++ [doc]) (tickets w) (randoms w) (clocks w) (dbOps w))).

(** [Ticket.create(doc)]; the ticket schema declares no constraint. *)
Definition Ticket_create (env : Env) (doc : Ticket) : M Ticket :=
  dbCall env (λ w,
    (Returned doc,
     mkWorld (users w) (tickets w ++ [doc]) (randoms w) (clocks w) (dbOps w))).

(** [Ticket.find({ ticketId: id }).skip((page - 1) * limit).limit(limit)];
    what the driver makes of [page] and [limit] is the environment's. *)
Definition Ticket_find (env : Env) (id : string) (page limit : option string)
  : M (list Ticket) :=
  dbCall env (λ w,
    match Ticket_page env page limit
            (List.filter (λ t, String.eqb (ticketId t) id) (tickets w)) with
    | Some docs => (Returned docs, w)
    | None => (Thrown, w)
    end).

(** ** Ticket identifiers *)

Definition useRandom (w : World) : World :=
  mkWorld (users w) (tickets w) (S (randoms w)) (clocks w) (dbOps w).

Definition useClock (w : World) : World :=
  mkWorld (users w) (tickets w) (randoms w) (S (clocks w)) (dbOps w).

(** [generateUniqueTicketId()] on the values [Date.now()] and
    [Math.random()] return. *)
Definition ticketIdOf (now : Z) (sample : Q) : string :=
  let timestamp := Number_toString36 (inject_Z now) in
  let random := substr 2 5 (Number_toString36 sample) in
  (timestamp +:+ random)%string.

Definition generateUniqueTicketId (env : Env) : M string := λ w,
  let now := Date_now env (clocks w) in
  let sample := Math_random env (randoms w) in
  (Returned (ticketIdOf now sample), useRandom (useClock w)).

(** [generateTicket()] inside the process: it draws from the process's
    random source. *)
Definition generateTicketM (env : Env) : M Grid := λ w,
  let '(ticketData, k) := generateTicket (Math_random env) (randoms w) in
  (Returned ticketData, mkWorld (users w) (tickets w) k (clocks w) (dbOps w)).

(** ** Registration and login *)

(** A body property that reaches a handler as it was sent: a JSON string,
    or something that is no string (a number, a boolean, null, an array,
    an object, or nothing at all).  The validators test a string in either
    case: for what is no string, [shown] is the string they make of it,
    the decimal form of a number and the empty string for null and for an
    absent property. *)
Inductive Raw :=
  | Str (s : string)
  | NotStr (shown : string).

Definition shownAs (v : Raw) : string :=
  match v with
  | Str s => s
  | NotStr shown => shown
  end.

Definition isStr (v : Raw) : bool :=
  match v with
  | Str _ => true
  | NotStr _ => false
  end.

(** Request bodies.  The chains of POST /register sanitize [username],
    [email] and [name], which makes strings of them whatever was sent (an
    absent one reads as the empty string); nothing sanitizes [password],
    and POST /login runs no chain at all, so a password is read as it was
    sent.  The username of a login is taken at the type the schema
    declares. *)
Record RegisterBody := mkRegisterBody {
  reg_username : string;
  reg_password : Raw;
  reg_email : string;
  reg_name : string;
}.

Record LoginBody := mkLoginBody {
  login_username : string;
  login_password : Raw;
}.

(** [bcrypt.hash(data, 10)] and [bcrypt.compare(data, hash)]: both reject
    when [data] is not a string; on strings they are the environment's. *)
Definition bcryptHash (env : Env) (data : Raw) : M string := λ w,
  match data with
  | Str s => (Returned (bcrypt_hash env s), w)
  | NotStr _ => (Thrown, w)
  end.

Definition bcryptCompare (env : Env) (data : Raw) (hash : string) : M bool := λ w,
  match data with
  | Str s => (Returned (bcrypt_compare env s hash), w)
  | NotStr _ => (Thrown, w)
  end.

Definition notEmpty (s : string) : bool := negb (String.eqb s EmptyString).

(** [isLength({ min: 6 })] *)
Definition isLength6 (s : string) : bool := 6 <=? String.length s.

(** The validation chains of POST /register, in order; an error is
    recorded under the name of its field. *)
Definition validationResult (env : Env) (b : RegisterBody) : list string :=
  (if notEmpty (trim (reg_username b)) then [] else ["username"%string])
  ++ (if isLength6 (shownAs (reg_password b)) then [] else ["password"%string])
  ++ (if isEmail env (reg_email b) then [] else ["email"%string])
  ++ (if notEmpty (trim (reg_name b)) then [] else ["name"%string]).

Definition isEmpty {A} (l : list A) : bool := match l with [] => true | _ => false end.

Definition internalError : Response := mkResponse 500 (Message "An error occurred").

(** POST /register.  The sanitizers have rewritten the body by the time
    the handler reads it: [username] and [name] trimmed, [email]
    normalized; [password] is as it was sent.  A throw goes to
    [next(error)] and the error handler. *)
Definition register (env : Env) (b : RegisterBody) : World → Response * World :=
  tryCatch
    (let errors := validationResult env b in
     if negb (isEmpty errors) then mret (mkResponse 400 (Errors errors))
     else
       let username := trim (reg_username b) in
       let password := reg_password b in
       let email := normalizeEmail env (reg_email b) in
       let name := trim (reg_name b) in
       existingUser ← User_findOne_or env username email;
       match existingUser with
       | Some _ => mret (mkResponse 400 (Message "Username or email already exists"))
       | None =>
           hashedPassword ← bcryptHash env password;
           newUser ← User_create env (mkUser username hashedPassword email name);
           mret (mkResponse 200 (Message "User registered successfully"))
       end)
    internalError.

(** POST /login *)
Definition login (env : Env) (b : LoginBody) : World → Response * World :=
  tryCatch
    (user ← User_findOne env (login_username b);
     match user with
     | None => mret (mkResponse 401 (Message "Invalid username or password"))
     | Some user =>
         isPasswordValid ← bcryptCompare env (login_password b) (password user);
         if negb isPasswordValid
         then mret (mkResponse 401 (Message "Invalid username or password"))
         else
           let token := jwt_sign env (username user) "secret-key" in
           mret (mkResponse 200 (Token token))
     end)
    internalError.

(** ** The token gate and the ticket routes *)

(** [req.headers.authorization?.split(' ')[1]] *)
Definition authToken (authorization : option string) : option string :=
  authorization ≫= λ header, splitOn " " header !! 1.

(** The middleware [verifyToken]: either it answers itself, or it calls
    [next()] with [req.username] set to the decoded claim. *)
Definition verifyToken (env : Env) (authorization : option string)
  : Response + option string :=
  match authToken authorization with
  | None | Some EmptyString =>
      inl (mkResponse 401 (Message "Access denied. No token provided"))
  | Some token =>
      match jwt_verify env token "secret-key" with
      | None => inl (mkResponse 401 (Message "Invalid token"))
      | Some decoded_username => inr decoded_username
      end
  end.

Record CreateRequest := mkCreateRequest {
  create_authorization : option string;
  numTickets : option JSON;
}.

Record FetchRequest := mkFetchRequest {
  fetch_authorization : option string;
  id : string;
  page : option string;
  limit : option string;
}.

(** One turn of the loop body of POST /tickets. *)
Definition createOne (env : Env) : M Ticket :=
  newTicket ← generateTicketM env;
  ticketId ← generateUniqueTicketId env;
  _ ← Ticket_create env (mkTicket ticketId newTicket);
  mret (mkTicket ticketId newTicket).

(** [for (let i = 0; i < numTickets; i++) { ... tickets.push(...) }];
    [None] when the loop is still running after [fuel] tests of its
    condition. *)
Fixpoint ticketLoop (env : Env) (fuel : nat) (numTickets : option JSON) (i : Z)
    (tickets : list Ticket) (w : World) : option (Outcome (list Ticket) * World) :=
  match fuel with
  | 0 => None
  | S fuel' =>
      match ToNumber (StringToNumber env) numTickets with
      | Thrown => Some (Thrown, w)
      | Returned bound =>
          if lessThan i bound then
            match createOne env w with
            | (Returned t, w') =>
                ticketLoop env fuel' numTickets (increment i) (tickets ++ [t]) w'
            | (Thrown, w') => Some (Thrown, w')
            end
          else Some (Returned tickets, w)
      end
  end.

(** POST /tickets behind [verifyToken]. *)
Definition postTickets (env : Env) (fuel : nat) (req : CreateRequest) (w : World)
  : option (Response * World) :=
  match verifyToken env (create_authorization req) with
  | inl denied => Some (denied, w)
  | inr _ =>
      match ticketLoop env fuel (numTickets req) 0 [] w with
      | None => None
      | Some (Returned tickets, w') => Some (mkResponse 200 (TicketList tickets), w')
      | Some (Thrown, w') => Some (internalError, w')
      end
  end.

(** GET /tickets/:id behind [verifyToken]. *)
Definition getTickets (env : Env) (req : FetchRequest) (w : World) : Response * World :=
  match verifyToken env (fetch_authorization req) with
  | inl denied => (denied, w)
  | inr _ =>
      tryCatch
        (tickets ← Ticket_find env (id req) (page req) (limit req);
         mret (mkResponse 200 (TicketList tickets)))
        internalError w
  end.

(** ** A concrete environment and a concrete store, for running the model *)

Definition demoSign (claim key : string) : string := (key +:+ ":" +:+ claim)%string.

Definition demoVerify (token key : string) : option (option string) :=
  let mark := (key +:+ ":")%string in
  if String.prefix mark token
  then Some (Some (String.substring (String.length mark) (String.length token) token))
  else None.

Definition demoHash (data : string) : string := ("$2b$10$" +:+ data)%string.

Definition demoIsEmail (s : string) : bool :=
  match splitOn "@" s with
  | [local; domain] => notEmpty local && notEmpty domain
  | _ => false
  end.

(** A whole number that is not negative. *)
Definition wholeNumber (q : Q) : option nat :=
  if Qeq_bool (inject_Z (Qfloor q)) q && (0 <=? Qfloor q)%Z then Some (Z.to_nat (Qfloor q))
  else None.

(** A driver that takes [page] and [limit] for the numerals they are:
    [skip((page - 1) * limit)] drops that many matches and [limit(limit)]
    keeps that many of the rest, all of them when the limit is 0.  The
    query is rejected when a value is absent or no numeral, or when the
    numbers are not whole or are negative. *)
Definition skipLimit (page limit : option string) (docs : list Ticket)
  : option (list Ticket) :=
  match page, limit with
  | Some page, Some limit =>
      match stringToNumber page, stringToNumber limit with
      | Finite p, Finite l =>
          match wholeNumber (toDouble (toDouble (p - 1) * l)), wholeNumber l with
          | Some skip, Some 0 => Some (drop skip docs)
          | Some skip, Some count => Some (take count (drop skip docs))
          | _, _ => None
          end
      | _, _ => None
      end
  | _, _ => None
  end.

Definition demoEnv : Env := {|
  Math_random := cycleSource;
  Date_now := λ k, (1700000000000 + Z.of_nat k)%Z;
  storeFails := λ _, false;
  bcrypt_hash := demoHash;
  bcrypt_compare := λ data hash, String.eqb (demoHash data) hash;
  jwt_sign := demoSign;
  jwt_verify := demoVerify;
  isEmail := demoIsEmail;
  normalizeEmail := λ s, s;
  StringToNumber := stringToNumber;
  Ticket_page := skipLimit;
|}.

Definition emptyWorld : World := mkWorld [] [] 0 0 0.

Definition alice : User := mkUser "alice" (demoHash "secret1") "a@x.com" "Alice".

Definition aliceWorld : World := mkWorld [alice] [] 0 0 0.

Definition bearer (claim : string) : option string :=
  Some ("Bearer " +:+ demoSign claim "secret-key")%string.

(** ** Vocabulary of the properties *)

(** No user of the store carries this username. *)
Definition unknownUser (w : World) (uname : string) : Prop :=
  Forall (λ u, username u ≠ uname) (users w).

(** The store has a user of this username. *)
Definition knownUser (w : World) (uname : string) : Prop :=
  ∃ u, List.find (λ u, String.eqb (username u) uname) (users w) = Some u.

(** The store has a user of this username, and the password offered, a
    string, does not match the hash stored for the one the lookup
    returns. *)
Definition wrongPassword (env : Env) (w : World) (uname pw : string) : Prop :=
  ∃ u, List.find (λ u, String.eqb (username u) uname) (users w) = Some u
       ∧ bcrypt_compare env pw (password u) = false.

(** The database answers its next operation. *)
Definition storeUp (env : Env) (w : World) : Prop := storeFails env (dbOps w) = false.


(** The request went through [verifyToken]. *)
Definition authenticated (env : Env) (authorization : option string) : Prop :=
  ∃ claim, verifyToken env authorization = inr claim.


Definition isValidationError (r : Response) : Prop :=
  ∃ errors, r = mkResponse 400 (Errors errors).

Definition conflictError : Response :=
  mkResponse 400 (Message "Username or email already exists").

Definition isBase36 (c : ascii) : bool :=
  existsb (Ascii.eqb c) (list_ascii_of_string base36Digits).

Definition digitValue (c : ascii) : option Z :=
  let n := Z.of_nat (nat_of_ascii c) in
  if (48 <=? n)%Z && (n <=? 57)%Z then Some (n - 48)%Z
  else if (97 <=? n)%Z && (n <=? 122)%Z then Some (n - 87)%Z
  else None.

(** Reading a string of base-36 digits, most significant first. *)
Fixpoint parseDigits (acc : Z) (s : string) : option Z :=
  match s with
  | EmptyString => Some acc
  | String c s' =>
      match digitValue c with
      | Some d => parseDigits (acc * 36 + d)%Z s'
      | None => None
      end
  end.

(** The integer a base-36 numeral denotes, with an optional minus sign. *)
Definition parseInt36 (s : string) : option Z :=
  match s with
  | EmptyString => None
  | String "-" s' => Z.opp <$> parseDigits 0 s'
  | _ => parseDigits 0 s
  end.

(** A base-36 digit as a number. *)
Definition digitOk (d : Z) : Prop := (0 ≤ d < 36)%Z.

(** What being a double in [0, 1) gives of a sample: the largest double
    below 1 is 1 - 2^-53. *)
Definition doubleBelowOne (x : Q) : Prop := (0 <= x)%Q ∧ (x <= 1 - Qpower 2 (-53))%Q.

(** The largest magnitude of a time value. *)
Definition maxTimeValue : Z := 8640000000000000.

(** ** The logout route *)

(** POST /logout behind [verifyToken]: the response and the headers the
    handler sets on it.  The handler reads the token again, answers 401
    when there is none, and otherwise blanks the [Authorization] header of
    the response; it keeps no record of the token. *)
Definition logout (env : Env) (authorization : option string) (w : World)
  : (Response * list (string * string)) * World :=
  match verifyToken env authorization with
  | inl denied => ((denied, []), w)
  | inr _ =>
      match authToken authorization with
      | None | Some EmptyString =>
          ((mkResponse 401 (Message "User is already logged out"), []), w)
      | Some _ =>
          ((mkResponse 200 (Message "Logged out successfully"),
            [("Authorization"%string, EmptyString)]), w)
      end
  end.

(** ** Vocabulary of the further properties *)

(** The string has no space in it. *)
Fixpoint noSpace (s : string) : bool :=
  match s with
  | EmptyString => true
  | String c s' => negb (Ascii.eqb c " ") && noSpace s'
  end.

(** The uniqueness the user schema declares: no two users share a
    username, no two share an email. *)
Definition uniqueUsers (w : World) : Prop :=
  NoDup (username <$> users w) ∧ NoDup (email <$> users w).

(** The string does not start with whitespace. *)
Definition startsClean (s : string) : Prop :=
  match s with
  | String c _ => isSpace c = false
  | EmptyString => True
  end.

(** A string that [trim] leaves as it is, and that is not empty. *)
Definition trimmed (s : string) : Prop := trim s = s ∧ s ≠ EmptyString.

(** Every stored username and name is trimmed. *)
Definition trimmedUsers (w : World) : Prop :=
  Forall (λ u, trimmed (username u) ∧ trimmed (name u)) (users w).

(** A grid of 3 rows of 9 cells. *)
Definition gridShape (g : Grid) : Prop :=
  length g = 3 ∧ Forall (λ row, length row = 9) g.

(** The number of turns the loop of POST /tickets makes under a finite
    bound: the bound rounded up, and none when it is not positive. *)
Definition turns (q : Q) : nat := Z.to_nat (Qceiling q).

(** A random source that aims at the number [n]: every sample is the
    middle of the slot of index [(n - 1) mod 10] among ten. *)
Definition aimAt (n : nat) : nat → Q :=
  constSource (Z.of_nat (2 * ((n - 1) mod 10) + 1) # 20).

(** Whether the first row of the grid drawn with [aimAt n] holds [n] in
    the column of [n]. *)
Definition hitsAt (n : nat) : bool :=
  match cellAt (generateTicket (aimAt n) 0).1 0 ((n - 1) / 10) with
  | Some (Num m) => m =? n
  | _ => false
  end.

(** The concrete environment, with a store that fails its operation
    number [failAt] and no other. *)
Definition flakyEnv (failAt : nat) : Env := {|
  Math_random := Math_random demoEnv;
  Date_now := Date_now demoEnv;
  storeFails := λ k, k =? failAt;
  bcrypt_hash := bcrypt_hash demoEnv;
  bcrypt_compare := bcrypt_compare demoEnv;
  jwt_sign := jwt_sign demoEnv;
  jwt_verify := jwt_verify demoEnv;
  isEmail := isEmail demoEnv;
  normalizeEmail := normalizeEmail demoEnv;
  StringToNumber := StringToNumber demoEnv;
  Ticket_page := Ticket_page demoEnv;
|}.

(** The concrete environment, with a clock that stands still and a
    random source that always returns 1/2. *)
Definition frozenEnv : Env := {|
  Math_random := constSource (1 # 2);
  Date_now := λ _, 1700000000000%Z;
  storeFails := storeFails demoEnv;
  bcrypt_hash := bcrypt_hash demoEnv;
  bcrypt_compare := bcrypt_compare demoEnv;
  jwt_sign := jwt_sign demoEnv;
  jwt_verify := jwt_verify demoEnv;
  isEmail := isEmail demoEnv;
  normalizeEmail := normalizeEmail demoEnv;
  StringToNumber := StringToNumber demoEnv;
  Ticket_page := Ticket_page demoEnv;
|}.

(** ** Properties of the generator *)

Lemma floor_index_range (r : Q) (len : nat) :
  unitSample r → 0 < len →
  (0 ≤ Math_floor (r * inject_Z (Z.of_nat len)) < Z.of_nat len)%Z.
Proof.
  intros [Hlo Hhi] Hlen. unfold Math_floor.
  destruct r as [p q]. unfold Qle, Qlt in *. simpl in *.
  rewrite Z.mul_1_r in *.
  unfold Qfloor, Qmult, inject_Z. simpl.
  rewrite Pos.mul_1_r.
  split.
  - apply Z.div_pos; nia.
  - apply Z.div_lt_upper_bound; nia.
Qed.

Lemma splice1_index {A} (arr : list A) (start : Z) :
  ∃ i, splice1 arr start = (arr !! i, delete i arr) ∧
       ((0 ≤ start < Z.of_nat (length arr))%Z → i < length arr).
Proof.
  unfold splice1. eexists. split; [reflexivity|].
  intros H. destruct (Z.ltb_spec start 0); lia.
Qed.

Lemma drawCell_Draw rnd j st col :
  columns st !! j = Some col →
  ∃ c col' k', drawCell rnd j st = (c, mkGen (<[j := col']> (columns st)) k')
               ∧ Draw (unitSource rnd) col c col'.
Proof.
  intros Hj. unfold drawCell. rewrite Hj. cbn [default from_option Datatypes.id].
  destruct (Nat.ltb_spec 0 (length col)) as [Hpos|Hz].
  - destruct (splice1_index col (Math_floor (rnd (calls st) * inject_Z (Z.of_nat (length col)))))
      as (i & -> & Hi).
    exists (from_option Num Undefined (col !! i)), (delete i col), (S (calls st)).
    split; [done|]. constructor.
    + intros ->. simpl in Hpos. lia.
    + intros HU. apply Hi, floor_index_range; [apply HU | done].
  - assert (col = []) as -> by (destruct col; simpl in *; [done | lia]).
    exists Blank, [], (calls st). split; [|constructor].
    destruct st as [cols k]. simpl in *. f_equal. f_equal.
    symmetry. by apply list_insert_id.
Qed.

(** After the first [m] columns of a row: the row holds [m] cells, the
    pools from [m] on are untouched, and each pool before [m] has been
    visited once. *)
Lemma rowLoop_spec rnd st m :
  m ≤ 9 → length (columns st) = 9 →
  ∃ row st', foldl (pushCell rnd) ([], st) (seq 0 m) = (row, st')
    ∧ length row = m ∧ length (columns st') = 9
    ∧ (∀ j, m ≤ j → columns st' !! j = columns st !! j)
    ∧ (∀ j, j < m → ∃ col c col',
          columns st !! j = Some col ∧ row !! j = Some c
          ∧ columns st' !! j = Some col' ∧ Draw (unitSource rnd) col c col').
Proof.
  intros Hm Hlen. induction m as [|m IH].
  - exists [], st. repeat split; auto. intros j Hj. lia.
  - destruct IH as (row & st1 & Heq & Hrow & Hlen1 & Hsame & Hdone); [lia|].
    rewrite seq_S, foldl_snoc, Heq. cbn [Nat.add].
    destruct (lookup_lt_is_Some_2 (columns st1) m) as [col Hcol]; [lia|].
    destruct (drawCell_Draw rnd m st1 col Hcol) as (c & col' & k' & Hd & HD).
    unfold pushCell. cbn [fst snd]. rewrite Hd.
    exists (row ++ [c]), (mkGen (<[m := col']> (columns st1)) k'). simpl.
    split; [done|]. split; [rewrite length_app; simpl; lia|].
    split; [by rewrite length_insert|]. split.
    + intros j Hj. rewrite list_lookup_insert_ne by lia. apply Hsame. lia.
    + intros j Hj. destruct (decide (j = m)) as [->|Hne].
      * exists col, c, col'. rewrite <- Hsame by lia. split; [done|].
        split; [by rewrite lookup_app_r, Hrow, Nat.sub_diag by lia|].
        split; [|done]. apply list_lookup_insert_eq. lia.
      * destruct (Hdone j) as (col0 & c0 & col0' & H1 & H2 & H3 & H4); [lia|].
        exists col0, c0, col0'. split; [done|].
        split; [by apply lookup_app_l_Some|].
        split; [|done]. by rewrite list_lookup_insert_ne.
Qed.

Lemma fillRow_spec rnd st :
  length (columns st) = 9 →
  ∃ row st', fillRow rnd st = (row, st')
    ∧ length row = 9 ∧ length (columns st') = 9
    ∧ (∀ j, j < 9 → ∃ col c col',
          columns st !! j = Some col ∧ row !! j = Some c
          ∧ columns st' !! j = Some col' ∧ Draw (unitSource rnd) col c col').
Proof.
  intros Hlen. destruct (rowLoop_spec rnd st 9) as (row & st' & H1 & H2 & H3 & _ & H5); auto.
  exists row, st'. auto.
Qed.

(** After [m] rows: every row has nine cells and column [j] of the grid is
    the record of [m] successive visits to pool [j]. *)
Lemma gridLoop_spec rnd st m :
  length (columns st) = 9 →
  ∃ g st', foldl (pushRow rnd) ([], st) (seq 0 m) = (g, st')
    ∧ length g = m ∧ length (columns st') = 9
    ∧ Forall (λ row, length row = 9) g
    ∧ (∀ j, j < 9 → ∃ col cells col',
          columns st !! j = Some col ∧ columns st' !! j = Some col'
          ∧ Draws (unitSource rnd) col cells col'
          ∧ ∀ r, cellAt g r j = cells !! r).
Proof.
  intros Hlen. induction m as [|m IH].
  - exists [], st. repeat split; auto.
    intros j Hj. destruct (lookup_lt_is_Some_2 (columns st) j) as [col Hcol]; [lia|].
    exists col, [], col. repeat split; auto. constructor.
  - destruct IH as (g & st1 & Heq & Hg & Hlen1 & Hrows & Hcols).
    rewrite seq_S, foldl_snoc, Heq. unfold pushRow. cbn [fst snd].
    destruct (fillRow_spec rnd st1 Hlen1) as (row & st2 & Hf & Hrow & Hlen2 & Hdraw).
    rewrite Hf. exists (g ++ [row]), st2.
    split; [done|]. split; [rewrite length_app; simpl; lia|]. split; [done|].
    split; [apply Forall_app; split; [done | by constructor]|].
    intros j Hj.
    destruct (Hcols j Hj) as (col & cells & col1 & H1 & H2 & H3 & H4).
    destruct (Hdraw j Hj) as (col1' & c & col2 & H5 & H6 & H7 & H8).
    assert (col1' = col1) as -> by congruence.
    exists col, (cells ++ [c]), col2. split; [done|]. split; [done|].
    split; [econstructor; eauto|].
    intros r. unfold cellAt in *.
    assert (length cells = m) as Hcm.
    { destruct (Nat.lt_trichotomy (length cells) m) as [Hlt|[?|Hgt]]; [|done|].
      - specialize (H4 (length cells)).
        rewrite (lookup_ge_None_2 cells) in H4 by lia.
        destruct (lookup_lt_is_Some_2 g (length cells)) as [row' Hr']; [lia|].
        rewrite Hr' in H4. simpl in H4.
        rewrite Forall_forall in Hrows.
        pose proof (Hrows row' (list_elem_of_lookup_2 _ _ _ Hr')) as Hl.
        apply lookup_ge_None_1 in H4. lia.
      - specialize (H4 m).
        rewrite (lookup_ge_None_2 g) in H4 by lia. simpl in H4.
        destruct (lookup_lt_is_Some_2 cells m) as [c' Hc']; [lia|]. congruence. }
    destruct (Nat.lt_trichotomy r m) as [Hlt|[->|Hgt]].
    + rewrite !lookup_app_l by lia. apply H4.
    + rewrite !lookup_app_r by lia. rewrite Hg, Hcm, Nat.sub_diag. simpl. done.
    + rewrite !lookup_ge_None_2; [done | rewrite length_app; simpl; lia
                                 | rewrite length_app; simpl; lia].
Qed.

Lemma initColumns_eq : initColumns = (λ j, seq (10 * j + 1) 10) <$> seq 0 9.
Proof. reflexivity. Qed.

Lemma initColumns_lookup j : j < 9 → initColumns !! j = Some (seq (10 * j + 1) 10).
Proof.
  intros Hj. rewrite initColumns_eq, list_lookup_fmap, lookup_seq_lt by done.
  reflexivity.
Qed.

(** The grid, column by column: column [j] records three successive draws
    from the pool that starts as 10j+1 .. 10j+10. *)
Lemma generateTicket_columns rnd k g k' :
  generateTicket rnd k = (g, k') →
  length g = 3 ∧ Forall (λ row, length row = 9) g
  ∧ ∀ j, j < 9 → ∃ cells col',
      Draws (unitSource rnd) (seq (10 * j + 1) 10) cells col'
      ∧ ∀ r, cellAt g r j = cells !! r.
Proof.
  unfold generateTicket. intros Hgen.
  destruct (gridLoop_spec rnd (mkGen initColumns k) 3) as (g0 & st' & Heq & Hg & _ & Hrows & Hcols).
  { reflexivity. }
  rewrite Heq in Hgen. inversion Hgen; subst g0 k'; clear Hgen.
  split; [done|]. split; [done|].
  intros j Hj. destruct (Hcols j Hj) as (col & cells & col' & H1 & _ & H3 & H4).
  simpl in H1. rewrite initColumns_lookup in H1 by done. inversion H1; subst col.
  eauto.
Qed.

Lemma delete_beyond {A} (l : list A) i : length l ≤ i → delete i l = l.
Proof.
  intros H. rewrite delete_take_drop, take_ge, drop_ge by lia. apply app_nil_r.
Qed.

Lemma Draw_perm U col c col' : Draw U col c col' → nums [c] ++ col' ≡ₚ col.
Proof.
  intros [|col0 i Hne Hi]; [done|].
  destruct (col0 !! i) as [n|] eqn:Hn; simpl.
  - symmetry. by apply delete_Permutation.
  - rewrite delete_beyond; [done|]. by apply lookup_ge_None.
Qed.

Lemma Draws_perm U col cells col' : Draws U col cells col' → nums cells ++ col' ≡ₚ col.
Proof.
  induction 1 as [|col cells col1 c col2 _ IH HD]; [done|].
  unfold nums in *. rewrite omap_app, <- (assoc_L (++)).
  rewrite (Draw_perm _ _ _ _ HD). exact IH.
Qed.

Lemma Draws_length U col cells col' :
  Draws U col cells col' → length col ≤ length col' + length cells.
Proof.
  induction 1 as [|col cells col1 c col2 _ IH HD]; [lia|].
  rewrite length_app. simpl. inversion HD as [|col0 i _ _]; subst; [simpl in *; lia|].
  destruct (decide (i < length col1)) as [Hi|Hi].
  - pose proof (length_delete col1 i (lookup_lt_is_Some_2 col1 i Hi)). lia.
  - rewrite delete_beyond by lia. lia.
Qed.

(** While a pool has had fewer visits than it had numbers, a visit never
    writes the blank marker, and with samples in [0, 1) writes a number. *)
Lemma Draws_numeric U col cells col' :
  Draws U col cells col' → length cells ≤ length col →
  Forall (λ c, c ≠ Blank) cells ∧ (U → Forall (λ c, isNum c) cells).
Proof.
  induction 1 as [|col cells col1 c col2 HDs IH HD]; [by split; constructor|].
  rewrite length_app. simpl. intros Hlen.
  destruct IH as [IH1 IH2]; [lia|].
  pose proof (Draws_length _ _ _ _ HDs) as Hl.
  inversion HD as [|col0 i Hne Hi]; subst; [simpl in Hl; lia|].
  split.
  - apply Forall_app. split; [done|]. constructor; [|constructor].
    by destruct (col1 !! i).
  - intros HU. apply Forall_app. split; [auto|]. constructor; [|constructor].
    destruct (lookup_lt_is_Some_2 col1 i (Hi HU)) as [x ->]. done.
Qed.

Lemma nums_elem (cells : list Cell) r n : cells !! r = Some (Num n) → n ∈ nums cells.
Proof.
  intros H. unfold nums. apply list_elem_of_omap. exists (Num n).
  split; [by eapply list_elem_of_lookup_2 | done].
Qed.

Lemma nums_NoDup_lookup (cells : list Cell) r1 r2 n :
  NoDup (nums cells) → cells !! r1 = Some (Num n) → cells !! r2 = Some (Num n) → r1 = r2.
Proof.
  revert r1 r2. induction cells as [|c cells IH]; intros r1 r2 Hnd H1 H2; [done|].
  destruct r1 as [|r1], r2 as [|r2]; simpl in *; [done| | |].
  - inversion H1; subst c. simpl in Hnd. apply NoDup_cons in Hnd as [Hn _].
    exfalso. apply Hn. by eapply nums_elem.
  - inversion H2; subst c. simpl in Hnd. apply NoDup_cons in Hnd as [Hn _].
    exfalso. apply Hn. by eapply nums_elem.
  - f_equal. apply IH; [|done|done].
    unfold nums in *. simpl in Hnd. destruct (cellNum c); [|done].
    by apply NoDup_cons in Hnd as [_ ?].
Qed.

Lemma cellAt_bounds (g : Grid) r c x :
  length g = 3 → Forall (λ row, length row = 9) g → cellAt g r c = Some x → r < 3 ∧ c < 9.
Proof.
  intros Hg Hrows. unfold cellAt. intros H.
  destruct (g !! r) as [row|] eqn:Hr; [|done]. simpl in H.
  split; [apply lookup_lt_Some in Hr; lia|].
  rewrite Forall_forall in Hrows.
  pose proof (Hrows row (list_elem_of_lookup_2 _ _ _ Hr)).
  apply lookup_lt_Some in H. lia.
Qed.

Lemma generateTicket_cell_in_pool rnd k r c n :
  cellAt (generateTicket rnd k).1 r c = Some (Num n) →
  c < 9 ∧ ∃ cells col', Draws (unitSource rnd) (seq (10 * c + 1) 10) cells col'
        ∧ cells !! r = Some (Num n) ∧ NoDup (nums cells) ∧ columnRange c n.
Proof.
  destruct (generateTicket rnd k) as [g k'] eqn:Hgen. simpl. intros Hcell.
  destruct (generateTicket_columns _ _ _ _ Hgen) as (Hg & Hrows & Hcols).
  destruct (cellAt_bounds g r c _ Hg Hrows Hcell) as [Hr Hc].
  split; [done|].
  destruct (Hcols c Hc) as (cells & col' & HDs & Hat).
  exists cells, col'. rewrite <- Hat. split; [done|]. split; [done|].
  pose proof (Draws_perm _ _ _ _ HDs) as Hperm.
  assert (NoDup (nums cells ++ col')) as Hnd by (rewrite Hperm; apply NoDup_seq).
  split; [by apply NoDup_app in Hnd as [? _]|].
  assert (n ∈ seq (10 * c + 1) 10) as Hin.
  { rewrite <- Hperm. apply elem_of_app. left. eapply nums_elem. by rewrite <- Hat. }
  apply elem_of_seq in Hin. unfold columnRange. lia.
Qed.


(** The random numbers a call consumes: one per cell that is not the
    blank marker. *)
Lemma countBlank_snoc row c :
  countBlank (row ++ [c]) = countBlank row + (if isBlank c then 1 else 0).
Proof.
  unfold countBlank. rewrite filter_app, length_app. f_equal.
  destruct c; reflexivity.
Qed.

Lemma drawCell_calls rnd j st :
  calls (drawCell rnd j st).2 + (if isBlank (drawCell rnd j st).1 then 1 else 0)
  = S (calls st).
Proof.
  unfold drawCell. destruct (0 <? length _); [|simpl; lia].
  destruct (splice1 _ _) as [[n|] rest]; simpl; lia.
Qed.

Lemma rowLoop_calls rnd st m :
  calls (foldl (pushCell rnd) ([], st) (seq 0 m)).2
  + countBlank (foldl (pushCell rnd) ([], st) (seq 0 m)).1 = calls st + m.
Proof.
  induction m as [|m IH]; [simpl; unfold countBlank; simpl; lia|].
  rewrite seq_S, foldl_snoc. cbn [Nat.add].
  destruct (foldl (pushCell rnd) ([], st) (seq 0 m)) as [row st1]. cbn [fst snd] in *.
  unfold pushCell. cbn [fst snd].
  pose proof (drawCell_calls rnd m st1) as Hd.
  destruct (drawCell rnd m st1) as [c st2]. cbn [fst snd] in *.
  rewrite countBlank_snoc. lia.
Qed.

Lemma fillRow_calls rnd st :
  calls (fillRow rnd st).2 + countBlank (fillRow rnd st).1 = calls st + 9.
Proof. unfold fillRow. apply rowLoop_calls. Qed.

Lemma gridLoop_calls rnd st m :
  calls (foldl (pushRow rnd) ([], st) (seq 0 m)).2
  + countBlank (concat (foldl (pushRow rnd) ([], st) (seq 0 m)).1) = calls st + 9 * m.
Proof.
  induction m as [|m IH]; [simpl; unfold countBlank; simpl; lia|].
  rewrite seq_S, foldl_snoc. cbn [Nat.add].
  destruct (foldl (pushRow rnd) ([], st) (seq 0 m)) as [g st1]. cbn [fst snd] in *.
  unfold pushRow. cbn [fst snd].
  pose proof (fillRow_calls rnd st1) as Hr.
  destruct (fillRow rnd st1) as [row st2]. cbn [fst snd] in *.
  rewrite concat_app. unfold countBlank in *. rewrite filter_app, length_app.
  simpl. rewrite app_nil_r. lia.
Qed.

Lemma countBlank_zero cells : Forall (λ c, c ≠ Blank) cells → countBlank cells = 0.
Proof.
  unfold countBlank. induction 1 as [|c cells Hc _ IH]; [done|].
  destruct c; [exact IH | done | exact IH].
Qed.

Lemma generateTicket_no_blank rnd k : countBlank (concat (generateTicket rnd k).1) = 0.
Proof.
  destruct (generateTicket rnd k) as [g k'] eqn:Hgen. cbn [fst].
  destruct (generateTicket_columns _ _ _ _ Hgen) as (Hg & Hrows & Hcols).
  apply countBlank_zero, Forall_forall.
  intros c Hc. apply list_elem_of_In, in_concat in Hc as (row & Hrow & Hcrow).
  apply list_elem_of_In, list_elem_of_lookup in Hrow as [r Hr].
  apply list_elem_of_In, list_elem_of_lookup in Hcrow as [j Hj].
  rewrite Forall_forall in Hrows.
  pose proof (Hrows row (list_elem_of_lookup_2 _ _ _ Hr)) as Hlen.
  assert (j < 9) as Hj9 by (apply lookup_lt_Some in Hj; lia).
  destruct (Hcols j Hj9) as (cells & col' & HDs & Hat).
  assert (cells !! r = Some c) as Hcell.
  { rewrite <- Hat. unfold cellAt. rewrite Hr. exact Hj. }
  assert (length cells ≤ 3) as Hcl.
  { destruct (decide (length cells ≤ 3)) as [|Hgt]; [done|].
    pose proof (Hat 3) as H3. unfold cellAt in H3.
    rewrite (lookup_ge_None_2 g) in H3 by lia. cbn in H3.
    destruct (lookup_lt_is_Some_2 cells 3) as [x Hx]; [lia|]. congruence. }
  destruct (Draws_numeric _ _ _ _ HDs) as [Hnb _]; [rewrite length_seq; lia|].
  rewrite Forall_forall in Hnb.
  exact (Hnb c (list_elem_of_lookup_2 _ _ _ Hcell)).
Qed.

Lemma generateTicket_unfold rnd k :
  generateTicket rnd k
  = ((foldl (pushRow rnd) ([], mkGen initColumns k) (seq 0 3)).1,
     calls (foldl (pushRow rnd) ([], mkGen initColumns k) (seq 0 3)).2).
Proof.
  unfold generateTicket.
  by destruct (foldl (pushRow rnd) ([], mkGen initColumns k) (seq 0 3)).
Qed.

(** A call takes exactly 27 random numbers: three per column. *)
Lemma generateTicket_calls rnd k : (generateTicket rnd k).2 = k + 27.
Proof.
  pose proof (gridLoop_calls rnd (mkGen initColumns k) 3) as Hc.
  pose proof (generateTicket_no_blank rnd k) as Hb.
  rewrite generateTicket_unfold in Hb |- *.
  destruct (foldl (pushRow rnd) ([], mkGen initColumns k) (seq 0 3)) as [g st].
  cbn [fst snd calls] in *. lia.
Qed.

Lemma constSource_unit (x : Q) : unitSample x → unitSource (constSource x).
Proof. intros H k. exact H. Qed.

Lemma cycleSource_unit : unitSource cycleSource.
Proof.
  intros k. unfold cycleSource, unitSample, Qle, Qlt. simpl.
  pose proof (Nat.mod_upper_bound k 8). lia.
Qed.

(** C1 (code defect, evaluated): with the random source cycling through
    0/8 .. 7/8 the generator returns a grid whose three rows each hold nine
    numbers and no blank at all, where the Tambula rule asks for five
    numbers and four blanks per row. *)
Theorem generateTicket_rows_are_full :
  (generateTicket cycleSource 0).1 =
    [ Num <$> [1; 12; 23; 34; 46; 57; 68; 79; 81];
      Num <$> [3; 14; 25; 36; 47; 58; 69; 71; 83];
      Num <$> [5; 16; 27; 38; 49; 60; 61; 73; 85] ]
  ∧ Forall (λ row, countNum row = 9 ∧ countBlank row = 0) (generateTicket cycleSource 0).1.
Proof. split; [vm_compute; reflexivity | vm_compute; repeat constructor]. Qed.

(** C2 (as stated, refuted): with every sample equal to 15/16 the first
    draw of column 0 takes index 9 of its pool, and the cell at row 0,
    column 0 is 10, outside the range 1-9 the claim gives to column 0; the
    pool of column 0 starts with ten numbers, not nine. *)
Lemma generateTicket_column0_holds_ten :
  unitSource (constSource (15 # 16))
  ∧ cellAt (generateTicket (constSource (15 # 16)) 0).1 0 0 = Some (Num 10)
  ∧ ¬ specColumnRange 0 10
  ∧ length <$> initColumns !! 0 = Some 10.
Proof.
  split; [apply constSource_unit; unfold unitSample, Qle, Qlt; simpl; lia|].
  split; [vm_compute; reflexivity|].
  split; [unfold specColumnRange; lia | reflexivity].
Qed.

(** C2 (amended): every pool starts with ten numbers, pool [c] being
    10c+1 .. 10c+10 for every column 0 <= c <= 8 (so column 0 is 1-10), and
    every numeric cell in column [c] of a generated grid lies in
    [10c+1, 10c+10]. *)
Theorem generateTicket_column_ranges rnd k r c n :
  cellAt (generateTicket rnd k).1 r c = Some (Num n) →
  initColumns = (λ j, seq (10 * j + 1) 10) <$> seq 0 9
  ∧ c ≤ 8 ∧ 10 * c + 1 ≤ n ≤ 10 * c + 10.
Proof.
  intros H. apply generateTicket_cell_in_pool in H as (Hc & _ & _ & _ & _ & _ & Hr).
  split; [reflexivity|]. unfold columnRange in Hr. lia.
Qed.

Lemma generateTicket_column_ranges_witness :
  cellAt (generateTicket cycleSource 0).1 1 3 = Some (Num 36)
  ∧ 3 ≤ 8 ∧ 10 * 3 + 1 ≤ 36 ≤ 10 * 3 + 10.
Proof.
  split; [vm_compute; reflexivity|].
  apply (generateTicket_column_ranges cycleSource 0 1 3 36). vm_compute. reflexivity.
Defined.

(** C3: the nine pools start with ten numbers each, a call makes 27 draws
    (three per column), and with every random sample in [0, 1) each of the
    27 cells of a generated grid is a number: neither the blank branch nor
    an out-of-range splice is ever taken. *)
Theorem generateTicket_all_numeric rnd k r c :
  unitSource rnd → r < 3 → c < 9 →
  length <$> initColumns = replicate 9 10
  ∧ (generateTicket rnd k).2 = k + 27
  ∧ ∃ n, cellAt (generateTicket rnd k).1 r c = Some (Num n).
Proof.
  intros HU Hr Hc. split; [reflexivity|]. split; [apply generateTicket_calls|].
  destruct (generateTicket rnd k) as [g k'] eqn:Hgen. simpl.
  destruct (generateTicket_columns _ _ _ _ Hgen) as (Hg & Hrows & Hcols).
  destruct (Hcols c Hc) as (cells & col' & HDs & Hat).
  assert (length cells = 3) as Hcells.
  { destruct (Nat.lt_trichotomy (length cells) 3) as [Hlt|[?|Hgt]]; [|done|].
    - pose proof (Hat (length cells)) as H.
      rewrite (lookup_ge_None_2 cells) in H by lia. unfold cellAt in H.
      destruct (lookup_lt_is_Some_2 g (length cells)) as [row Hrow]; [lia|].
      rewrite Hrow in H. simpl in H. rewrite Forall_forall in Hrows.
      pose proof (Hrows row (list_elem_of_lookup_2 _ _ _ Hrow)).
      apply lookup_ge_None_1 in H. lia.
    - pose proof (Hat 3) as H. unfold cellAt in H.
      rewrite (lookup_ge_None_2 g) in H by lia. simpl in H.
      destruct (lookup_lt_is_Some_2 cells 3) as [x Hx]; [lia|]. congruence. }
  destruct (Draws_numeric _ _ _ _ HDs) as [_ Hnum]; [rewrite length_seq; lia|].
  destruct (lookup_lt_is_Some_2 cells r) as [x Hx]; [lia|].
  rewrite Hat, Hx. pose proof (Hnum HU) as HF. rewrite Forall_forall in HF.
  pose proof (HF x (list_elem_of_lookup_2 _ _ _ Hx)) as Hn.
  destruct x; [eauto | destruct Hn | destruct Hn].
Qed.

Lemma generateTicket_all_numeric_witness :
  ∃ n, cellAt (generateTicket cycleSource 5).1 2 7 = Some (Num n).
Proof.
  apply (generateTicket_all_numeric cycleSource 5 2 7); [apply cycleSource_unit | lia | lia].
Defined.

(** C4: in a generated grid no number appears in two different cells: two
    cells holding the same number are the same cell. *)
Theorem generateTicket_distinct rnd k r1 c1 r2 c2 n :
  cellAt (generateTicket rnd k).1 r1 c1 = Some (Num n) →
  cellAt (generateTicket rnd k).1 r2 c2 = Some (Num n) →
  r1 = r2 ∧ c1 = c2.
Proof.
  intros H1 H2.
  destruct (generateTicket rnd k) as [g k'] eqn:Hgen. simpl in *.
  destruct (generateTicket_columns _ _ _ _ Hgen) as (Hg & Hrows & Hcols).
  pose proof H1 as H1'. pose proof H2 as H2'.
  replace g with (generateTicket rnd k).1 in H1', H2' by (by rewrite Hgen).
  apply generateTicket_cell_in_pool in H1' as (Hc1 & _ & _ & _ & _ & _ & Hr1).
  apply generateTicket_cell_in_pool in H2' as (Hc2 & _ & _ & _ & _ & _ & Hr2).
  unfold columnRange in *.
  assert (c1 = c2) as <- by lia. split; [|done].
  destruct (Hcols c1 Hc1) as (cells & col' & HDs & Hat).
  rewrite Hat in H1, H2.
  eapply nums_NoDup_lookup; [|exact H1|exact H2].
  pose proof (Draws_perm _ _ _ _ HDs) as Hperm.
  assert (NoDup (nums cells ++ col')) as Hnd by (rewrite Hperm; apply NoDup_seq).
  by apply NoDup_app in Hnd as [? _].
Qed.

Lemma generateTicket_distinct_witness :
  cellAt (generateTicket cycleSource 0).1 1 3 = Some (Num 36) ∧ 1 = 1 ∧ 3 = 3.
Proof.
  split; [vm_compute; reflexivity|].
  apply (generateTicket_distinct cycleSource 0 1 3 1 3 36); vm_compute; reflexivity.
Defined.

(** C5: a generated grid has exactly 3 rows and every row has exactly 9
    cells, whatever the random source returns. *)
Theorem generateTicket_shape rnd k :
  length (generateTicket rnd k).1 = 3
  ∧ Forall (λ row, length row = 9) (generateTicket rnd k).1.
Proof.
  destruct (generateTicket rnd k) as [g k'] eqn:Hgen. simpl.
  destruct (generateTicket_columns _ _ _ _ Hgen) as (Hg & Hrows & _).
  exact (conj Hg Hrows).
Qed.


(** ** Properties of the identifier generator *)

Lemma digitChar_cases d :
  digitOk d → isBase36 (digitChar d) = true ∧ digitValue (digitChar d) = Some d.
Proof.
  unfold digitOk. intros Hd.
  assert (∃ k, k < 36 ∧ d = Z.of_nat k) as (k & Hk & ->) by (exists (Z.to_nat d); lia).
  do 36 (destruct k as [|k]; [split; reflexivity|]). lia.
Qed.

(** *** Double arithmetic *)

Lemma Qltb_lt x y : Qltb x y = true ↔ (x < y)%Q.
Proof.
  unfold Qltb. destruct (Qle_bool y x) eqn:H; cbn [negb].
  - apply Qle_bool_iff in H. split; [discriminate|]. intros Hlt. exfalso.
    exact (Qlt_irrefl _ (Qlt_le_trans _ _ _ Hlt H)).
  - split; [intros _|reflexivity]. apply Qnot_le_lt. intros Hle.
    apply Qle_bool_iff in Hle. congruence.
Qed.

Lemma Qltb_ge x y : Qltb x y = false ↔ (y <= x)%Q.
Proof.
  unfold Qltb. destruct (Qle_bool y x) eqn:H; cbn [negb].
  - apply Qle_bool_iff in H. split; [by intros _|reflexivity].
  - split; [discriminate|]. intros Hle. apply Qle_bool_iff in Hle. congruence.
Qed.

(** Rounding to the nearest integer moves a number by a half at most. *)
Lemma roundHalfEven_near (y : Q) :
  (inject_Z (roundHalfEven y) <= y + (1 # 2))%Q ∧ (y - (1 # 2) <= inject_Z (roundHalfEven y))%Q.
Proof.
  unfold roundHalfEven. cbv zeta.
  pose proof (Qfloor_le y) as Hle. pose proof (Qlt_floor y) as Hlt.
  rewrite inject_Z_plus in Hlt. change (inject_Z 1) with 1%Q in Hlt.
  destruct (Qltb (y - inject_Z (Qfloor y)) (1 # 2)) eqn:H1.
  { apply Qltb_lt in H1. split; lra. }
  apply Qltb_ge in H1.
  assert (∀ b : bool, inject_Z (if b then Qfloor y else (Qfloor y + 1)%Z) <= y + (1 # 2)
                      ∧ y - (1 # 2) <= inject_Z (Qfloor y + 1))%Q as Hup.
  { intros b. rewrite inject_Z_plus. change (inject_Z 1) with 1%Q.
    destruct b; [split; lra|]. rewrite inject_Z_plus. change (inject_Z 1) with 1%Q. split; lra. }
  destruct (Qltb (1 # 2) (y - inject_Z (Qfloor y))) eqn:H2.
  { destruct (Hup false) as [Ha Hb]. split; [exact Ha | exact Hb]. }
  apply Qltb_ge in H2.
  destruct (Z.even (Qfloor y)).
  - split; lra.
  - destruct (Hup false) as [Ha Hb]. split; [exact Ha | exact Hb].
Qed.

Lemma roundHalfEven_nonneg (y : Q) : (0 <= y)%Q → (0 ≤ roundHalfEven y)%Z.
Proof.
  intros Hy. assert (0 ≤ Qfloor y)%Z as H0.
  { change 0%Z with (Qfloor 0). by apply Qfloor_resp_le. }
  unfold roundHalfEven. cbv zeta.
  destruct (Qltb _ _); [exact H0|]. destruct (Qltb _ _); [lia|].
  destruct (Z.even _); lia.
Qed.

Lemma Qabs_nonneg (x : Q) : (0 <= x)%Q → Qabs x = x.
Proof.
  destruct x as [p q]. unfold Qle, Qabs. cbn [Qnum Qden]. intros H.
  rewrite Z.abs_eq; [reflexivity | lia].
Qed.

Lemma Qpower2_pos (z : Z) : (0 < Qpower 2 z)%Q.
Proof. apply Qpower_0_lt. reflexivity. Qed.

Lemma Qpower2_Z (a : Z) : (0 ≤ a)%Z → (Qpower 2 a == inject_Z (2 ^ a))%Q.
Proof. intros Ha. symmetry. apply (Zpower_Qpower 2 a Ha). Qed.

(** [floorLog2] from below: 2^floorLog2(x) <= x for a positive [x]. *)
Lemma floorLog2_le (x : Q) : (0 < x)%Q → (Qpower 2 (floorLog2 x) <= x)%Q.
Proof.
  intros Hx. unfold floorLog2. cbv zeta.
  destruct (Qle_bool _ _) eqn:Hb; [by apply Qle_bool_iff|]. clear Hb.
  destruct x as [p q]. unfold Qlt in Hx. cbn [Qnum Qden] in *. rewrite Z.mul_1_r in Hx.
  cbn in Hx.
  pose proof (Z.log2_spec p Hx) as [Hp _].
  pose proof (Z.log2_spec (Z.pos q) (Pos2Z.is_pos q)) as [_ Hq].
  pose proof (Z.log2_nonneg p) as Hp0. pose proof (Z.log2_nonneg (Z.pos q)) as Hq0.
  replace (Z.log2 p - Z.log2 (Z.pos q) - 1)%Z
    with (Z.log2 p + - (Z.succ (Z.log2 (Z.pos q))))%Z by lia.
  rewrite Qpower_plus by discriminate. rewrite Qpower_opp.
  rewrite !Qpower2_Z by lia.
  set (A := (2 ^ Z.log2 p)%Z) in *. set (B := (2 ^ Z.succ (Z.log2 (Z.pos q)))%Z) in *.
  apply Qle_shift_div_r.
  - change 0%Q with (inject_Z 0). rewrite <- Zlt_Qlt. lia.
  - unfold Qle, Qmult, inject_Z. cbn [Qnum Qden]. nia.
Qed.

(** The last place of the doubles next to a positive number below [n]
    is finer than [n * 2^-52]. *)
Lemma lastPlace_fine (x n : Q) :
  (0 < x)%Q → (x < n)%Q → (1 <= n)%Q → (Qpower 2 (lastPlace x) < n * Qpower 2 (-52))%Q.
Proof.
  intros Hx Hxn Hn. unfold lastPlace.
  pose proof (Qpower2_pos (-52)) as H52.
  destruct (Z.max_spec (floorLog2 x - 52) (-1074)) as [[_ ->]|[_ ->]].
  - apply Qlt_le_trans with (1 * Qpower 2 (-52))%Q.
    + rewrite Qmult_1_l. reflexivity.
    + apply Qmult_le_compat_r; [exact Hn | by apply Qlt_le_weak].
  - replace (floorLog2 x - 52)%Z with (floorLog2 x + -52)%Z by lia.
    rewrite Qpower_plus by discriminate.
    apply Qle_lt_trans with (x * Qpower 2 (-52))%Q.
    + apply Qmult_le_compat_r; [by apply floorLog2_le | by apply Qlt_le_weak].
    + apply Qmult_lt_compat_r; [exact H52 | exact Hxn].
Qed.

(** The product of a double below 1 and a positive whole number, rounded
    to the nearest double, is still below that number. *)
Lemma double_index_range (r : Q) (n : nat) :
  (0 <= r)%Q → (r <= 1 - Qpower 2 (-53))%Q → 0 < n →
  (0 ≤ Math_floor (toDouble (r * inject_Z (Z.of_nat n))) < Z.of_nat n)%Z.
Proof.
  intros Hr0 Hr1 Hn. unfold Math_floor, toDouble.
  set (len := inject_Z (Z.of_nat n)).
  assert (1 <= len)%Q as Hlen.
  { unfold len. change 1%Q with (inject_Z 1). rewrite <- Zle_Qle. lia. }
  assert (Qfloor len = Z.of_nat n) as Hfl by apply Qfloor_Z.
  assert (∀ q, (q < len)%Q → (Qfloor q < Z.of_nat n)%Z) as Hbelow.
  { intros q Hq. rewrite Zlt_Qlt. eapply Qle_lt_trans; [apply Qfloor_le | exact Hq]. }
  clearbody len.
  pose proof (Qpower2_pos (-53)) as H53.
  assert (Qpower 2 (-52) == 2 * Qpower 2 (-53))%Q as H5253 by reflexivity.
  assert (∀ x, (0 < x)%Q → (x < len)%Q → (Qpower 2 (lastPlace x) < len * Qpower 2 (-52))%Q)
    as Hplace by (intros x H0 H1; by apply lastPlace_fine).
  revert Hr1 H53 H5253 Hplace. generalize (Qpower 2 (-53)). generalize (Qpower 2 (-52)).
  intros e52 e53 Hr1 H53 H5253 Hplace.
  destruct (Qeq_bool (r * len) 0) eqn:Hz; [change (0 ≤ 0 < Z.of_nat n)%Z; lia|].
  assert (0 < r * len)%Q as Hx.
  { apply Qeq_bool_neq in Hz. assert (0 <= r * len)%Q by (apply Qmult_le_0_compat; lra).
    apply Qle_lteq in H as [H|H]; [exact H|]. exfalso. apply Hz. by symmetry. }
  assert (r * len < len)%Q as Hxn.
  { apply Qlt_le_trans with (1 * len)%Q; [|rewrite Qmult_1_l; apply Qle_refl].
    apply Qmult_lt_compat_r; lra. }
  assert (Qltb (r * len) 0 = false) as -> by (apply Qltb_ge; by apply Qlt_le_weak).
  rewrite (Qabs_nonneg (r * len)) by (by apply Qlt_le_weak).
  cbv zeta.
  set (u := Qpower 2 (lastPlace (r * len))).
  assert (0 < u)%Q as Hu by apply Qpower2_pos.
  assert (u < len * e52)%Q as Hfine.
  { unfold u. by apply Hplace. }
  set (m := roundHalfEven (r * len / u)).
  pose proof (roundHalfEven_near (r * len / u)) as [Hnear _]. fold m in Hnear.
  pose proof (roundHalfEven_nonneg (r * len / u)) as Hm0. fold m in Hm0.
  rewrite Qred_correct.
  assert (inject_Z m * u <= r * len + u * (1 # 2))%Q as Hmu.
  { apply Qle_trans with ((r * len / u + (1 # 2)) * u)%Q.
    - apply Qmult_le_compat_r; [exact Hnear | by apply Qlt_le_weak].
    - apply Qle_lteq. right. field. lra. }
  assert (inject_Z m * u < len)%Q as Hlt.
  { eapply Qle_lt_trans; [exact Hmu|].
    assert (r * len <= (1 - e53) * len)%Q as Hprod by (apply Qmult_le_compat_r; lra).
    assert ((1 - e53) * len == len - len * e53)%Q as Hring by ring.
    rewrite Hring in Hprod. rewrite H5253 in Hfine. clear -Hprod Hfine.
    clearbody u. lra. }
  split.
  - change 0%Z with (Qfloor 0). apply Qfloor_resp_le.
    apply Qmult_le_0_compat; [|by apply Qlt_le_weak].
    change 0%Q with (inject_Z 0). rewrite <- Zle_Qle. apply Hm0.
    apply Qle_shift_div_l; [exact Hu|]. rewrite Qmult_0_l. by apply Qlt_le_weak.
  - by apply Hbelow.
Qed.

(** [toDouble] on a positive number: a whole number of last places. *)
Lemma toDouble_pos (x : Q) :
  (0 < x)%Q →
  (toDouble x == inject_Z (roundHalfEven (x / Qpower 2 (lastPlace x))) * Qpower 2 (lastPlace x))%Q.
Proof.
  intros Hx. unfold toDouble.
  destruct (Qeq_bool x 0) eqn:Hz.
  { apply Qeq_bool_iff in Hz. rewrite Hz in Hx. exfalso. exact (Qlt_irrefl _ Hx). }
  assert (Qltb x 0 = false) as -> by (apply Qltb_ge; by apply Qlt_le_weak).
  rewrite (Qabs_nonneg x) by (by apply Qlt_le_weak).
  cbv zeta. apply Qred_correct.
Qed.

Lemma toDouble_zero (x : Q) : (x == 0)%Q → toDouble x = 0%Q.
Proof. intros Hx. unfold toDouble. apply Qeq_bool_iff in Hx. by rewrite Hx. Qed.

Lemma toDouble_nonneg (x : Q) : (0 <= x)%Q → (0 <= toDouble x)%Q.
Proof.
  intros Hx. apply Qle_lteq in Hx as [Hx|Hx].
  - rewrite (toDouble_pos x Hx). apply Qmult_le_0_compat.
    + change 0%Q with (inject_Z 0). rewrite <- Zle_Qle. apply roundHalfEven_nonneg.
      apply Qle_shift_div_l; [apply Qpower2_pos|]. rewrite Qmult_0_l. by apply Qlt_le_weak.
    + apply Qlt_le_weak, Qpower2_pos.
  - rewrite toDouble_zero; [apply Qle_refl | by symmetry].
Qed.

(** [floorLog2] from above. *)
Lemma floorLog2_lt (x : Q) : (0 < x)%Q → (x < Qpower 2 (floorLog2 x + 1))%Q.
Proof.
  intros Hx. unfold floorLog2. cbv zeta.
  destruct (Qle_bool _ _) eqn:Hb.
  2: { replace (Z.log2 (Qnum x) - Z.log2 (Z.pos (Qden x)) - 1 + 1)%Z
         with (Z.log2 (Qnum x) - Z.log2 (Z.pos (Qden x)))%Z by lia.
       apply Qnot_le_lt. intros Hle. apply Qle_bool_iff in Hle. congruence. }
  clear Hb. destruct x as [p q]. unfold Qlt in Hx. cbn [Qnum Qden] in *.
  rewrite Z.mul_1_r in Hx. cbn in Hx.
  pose proof (Z.log2_spec p Hx) as [_ Hp].
  pose proof (Z.log2_spec (Z.pos q) (Pos2Z.is_pos q)) as [Hq _].
  pose proof (Z.log2_nonneg p) as Hp0. pose proof (Z.log2_nonneg (Z.pos q)) as Hq0.
  replace (Z.log2 p - Z.log2 (Z.pos q) + 1)%Z
    with (Z.succ (Z.log2 p) + - Z.log2 (Z.pos q))%Z by lia.
  rewrite Qpower_plus by discriminate. rewrite Qpower_opp.
  rewrite !Qpower2_Z by lia.
  set (A := (2 ^ Z.succ (Z.log2 p))%Z) in *. set (B := (2 ^ Z.log2 (Z.pos q))%Z) in *.
  apply Qlt_shift_div_l.
  - change 0%Q with (inject_Z 0). rewrite <- Zlt_Qlt. lia.
  - unfold Qlt, Qmult, inject_Z. cbn [Qnum Qden]. nia.
Qed.

(** Below 1 the last place is 2^-53 or finer. *)
Lemma lastPlace_below_one (z : Q) : (0 < z)%Q → (z < 1)%Q → (lastPlace z ≤ -53)%Z.
Proof.
  intros H0 H1. pose proof (floorLog2_le z H0) as Hle.
  assert (floorLog2 z < 0)%Z as He.
  { apply (Qpower_lt_compat_l_inv 2); [|reflexivity].
    eapply Qle_lt_trans; [exact Hle|]. exact H1. }
  unfold lastPlace. lia.
Qed.

Lemma Qpower2_neg (k : Z) : (0 ≤ k)%Z → (Qpower 2 (- k) * inject_Z (2 ^ k) == 1)%Q.
Proof.
  intros Hk. rewrite Qpower_opp, Qpower2_Z by exact Hk.
  rewrite Qmult_comm. apply Qmult_inv_r.
  intros H. assert (0 < 2 ^ k)%Z as Hpos by lia.
  rewrite Zlt_Qlt in Hpos. rewrite H in Hpos. exact (Qlt_irrefl _ Hpos).
Qed.

(** Whole numbers that differ by less than one are in order. *)
Lemma whole_le (m k : Z) : (inject_Z m <= inject_Z k + (1 # 2))%Q → (m ≤ k)%Z.
Proof.
  intros H. destruct (Z.le_gt_cases m k) as [|Hgt]; [done|]. exfalso.
  assert (inject_Z (k + 1) <= inject_Z m)%Q as H' by (rewrite <- Zle_Qle; lia).
  rewrite inject_Z_plus in H'. change (inject_Z 1) with 1%Q in H'. lra.
Qed.

(** Rounding keeps a fraction a double below 1. *)
Lemma toDouble_below_one (z : Q) : doubleBelowOne z → doubleBelowOne (toDouble z).
Proof.
  intros [H0 H1]. split; [by apply toDouble_nonneg|].
  pose proof (Qpower2_pos (-53)) as H53.
  apply Qle_lteq in H0 as [H0|H0].
  2: { rewrite toDouble_zero by (by symmetry). lra. }
  assert (z < 1)%Q as Hz1 by lra.
  rewrite (toDouble_pos z H0).
  pose proof (lastPlace_below_one z H0 Hz1) as Hb.
  revert Hb. generalize (lastPlace z). intros b Hb.
  pose proof (roundHalfEven_near (z / Qpower 2 b)) as [Hnear _].
  revert Hnear. generalize (roundHalfEven (z / Qpower 2 b)). intros m Hnear.
  assert (∃ k, 53 ≤ k ∧ b = - k)%Z as (k & Hk & ->) by (exists (- b)%Z; lia).
  clear Hb.
  pose proof (Qpower2_neg k ltac:(lia)) as Hu.
  pose proof (Qpower2_neg 53 ltac:(lia)) as Hu53.
  pose proof (Qpower2_pos (- k)) as Hupos.
  assert (2 ^ k = 2 ^ 53 * 2 ^ (k - 53))%Z as Hsplit.
  { rewrite <- Z.pow_add_r by lia. f_equal. lia. }
  assert (0 < 2 ^ (k - 53))%Z as Hrpos by (apply Z.pow_pos_nonneg; lia).
  revert Hsplit Hrpos. generalize (2 ^ (k - 53))%Z. intros r Hsplit Hrpos.
  assert (inject_Z (2 ^ k) == inject_Z (2 ^ 53) * inject_Z r)%Q as HP.
  { rewrite Hsplit, inject_Z_mult. reflexivity. }
  assert (0 < inject_Z r)%Q as Hrq.
  { change 0%Q with (inject_Z 0). rewrite <- Zlt_Qlt. exact Hrpos. }
  change (- (53))%Z with (-53)%Z in Hu53.
  assert (inject_Z (2 ^ k) == inject_Z (2 ^ k - r) + inject_Z r)%Q as HK.
  { rewrite <- inject_Z_plus. replace (2 ^ k - r + r)%Z with (2 ^ k)%Z by lia. reflexivity. }
  revert HK. generalize (2 ^ k - r)%Z. intros K HK.
  revert Hnear Hu Hu53 Hupos HP HK H1 H53.
  generalize (Qpower 2 (- k)). generalize (Qpower 2 (-53)).
  generalize (inject_Z (2 ^ k)). generalize (inject_Z (2 ^ 53)).
  intros P53 P e53 u Hnear Hu Hu53 Hupos HP HK H1 H53.
  assert (0 < P)%Q as HPpos.
  { clear -Hu Hupos. nra. }
  assert (z / u == z * P)%Q as Hdiv.
  { assert (z / u == z * (u * P) / u)%Q as -> by (rewrite Hu; field; lra). field. lra. }
  rewrite Hdiv in Hnear.
  assert (e53 * P == inject_Z r)%Q as Her.
  { rewrite HP, Qmult_assoc, Hu53. ring. }
  assert (z * P <= (1 - e53) * P)%Q as HzP by (apply Qmult_le_compat_r; lra).
  assert ((1 - e53) * P == P - e53 * P)%Q as Hring by ring.
  rewrite Hring, Her in HzP.
  assert (m ≤ K)%Z as HmK by (apply whole_le; lra).
  rewrite Zle_Qle in HmK.
  apply Qle_trans with (inject_Z K * u)%Q.
  - apply Qmult_le_compat_r; [exact HmK | by apply Qlt_le_weak].
  - assert (inject_Z K * u == 1 - e53)%Q as ->; [|apply Qle_refl].
    assert (inject_Z K == P - e53 * P)%Q as -> by (rewrite Her; lra).
    assert ((P - e53 * P) * u == u * P - e53 * (u * P))%Q as -> by ring.
    rewrite Hu. ring.
Qed.

(** Rounding moves a positive number up by half a last place at most. *)
Lemma toDouble_near (x : Q) :
  (0 < x)%Q → (toDouble x <= x + Qpower 2 (lastPlace x) * (1 # 2))%Q.
Proof.
  intros Hx. rewrite (toDouble_pos x Hx).
  pose proof (Qpower2_pos (lastPlace x)) as Hu. revert Hu.
  generalize (Qpower 2 (lastPlace x)). intros u Hu.
  pose proof (roundHalfEven_near (x / u)) as [Hnear _].
  apply Qle_trans with ((x / u + (1 # 2)) * u)%Q.
  - apply Qmult_le_compat_r; [exact Hnear | by apply Qlt_le_weak].
  - apply Qle_lteq. right. field. lra.
Qed.

(** What is left of a double after its whole part is taken off is a
    double below 1. *)
Lemma fraction_below_one (x : Q) :
  (0 <= x)%Q → doubleBelowOne (toDouble x - inject_Z (Qfloor (toDouble x))).
Proof.
  intros Hx.
  pose proof (Qfloor_le (toDouble x)) as Hfl. pose proof (Qlt_floor (toDouble x)) as Hfu.
  rewrite inject_Z_plus in Hfu. change (inject_Z 1) with 1%Q in Hfu.
  split; [lra|].
  assert (0 ≤ Qfloor (toDouble x))%Z as Hd0.
  { change 0%Z with (Qfloor 0). apply Qfloor_resp_le. by apply toDouble_nonneg. }
  rewrite Zle_Qle in Hd0. change (inject_Z 0) with 0%Q in Hd0.
  pose proof (Qpower2_pos (-53)) as H53.
  pose proof (Qpower2_neg 53 ltac:(lia)) as Hu53. change (- (53))%Z with (-53)%Z in Hu53.
  apply Qle_lteq in Hx as [Hx|Hx].
  2: { rewrite toDouble_zero in * by (by symmetry).
       change (Qfloor 0) with 0%Z in *. change (inject_Z 0) with 0%Q.
       assert (Qpower 2 (-53) <= 1)%Q by (vm_compute; discriminate).
       revert H. generalize (Qpower 2 (-53)). intros e53 ?. lra. }
  destruct (Z.le_gt_cases (-53) (lastPlace x)) as [Hb|Hb].
  - (* the double is a whole number of 2^-53 *)
    pose proof (toDouble_pos x Hx) as HF.
    revert HF. generalize (roundHalfEven (x / Qpower 2 (lastPlace x))). intros m HF.
    assert (Qpower 2 (lastPlace x) == inject_Z (2 ^ (lastPlace x + 53)) * Qpower 2 (-53))%Q as Hplace.
    { rewrite <- Qpower2_Z by lia. rewrite <- Qpower_plus by discriminate.
      replace (lastPlace x + 53 + -53)%Z with (lastPlace x) by lia. reflexivity. }
    rewrite Hplace in HF. clear Hplace.
    revert HF. generalize (2 ^ (lastPlace x + 53))%Z. intros j HF.
    revert HF Hfl Hfu Hd0. generalize (Qfloor (toDouble x)). generalize (toDouble x).
    intros F d HF Hfl Hfu Hd0.
    assert (F - inject_Z d == inject_Z (m * j - d * 2 ^ 53) * Qpower 2 (-53))%Q as Hz.
    { unfold Zminus. rewrite inject_Z_plus, inject_Z_opp, !inject_Z_mult, HF.
      assert (inject_Z d == inject_Z d * (Qpower 2 (-53) * inject_Z (2 ^ 53)))%Q as Hd
        by (rewrite Hu53; ring).
      rewrite Hd at 1. ring. }
    assert (F - inject_Z d < 1)%Q as Hz1 by lra.
    rewrite Hz. rewrite Hz in Hz1. clear Hz HF Hfu Hfl.
    revert Hz1. generalize (m * j - d * 2 ^ 53)%Z. intros J Hfu.
    assert (J ≤ 2 ^ 53 - 1)%Z as HJ.
    { assert (J < 2 ^ 53)%Z; [|lia]. rewrite Zlt_Qlt.
      revert Hu53 H53 Hfu. generalize (inject_Z (2 ^ 53)). generalize (Qpower 2 (-53)).
      intros e53 P53 Hu53 H53 Hfu. clear -Hu53 H53 Hfu.
      assert (inject_Z J * (e53 * P53) < 1 * P53 - 0)%Q; [|rewrite Hu53 in *; lra].
      assert (0 < P53)%Q by nra. nra. }
    rewrite Zle_Qle in HJ. unfold Zminus in HJ. rewrite inject_Z_plus in HJ.
    change (inject_Z (- (1))) with (- (1))%Q in HJ.
    revert Hu53 H53 HJ. generalize (inject_Z (2 ^ 53)). generalize (Qpower 2 (-53)).
    intros e53 P53 Hu53 H53 HJ. clear -Hu53 H53 HJ.
    assert (inject_Z J * e53 <= (P53 + - (1)) * e53)%Q as H
      by (apply Qmult_le_compat_r; [exact HJ | by apply Qlt_le_weak]).
    assert ((P53 + - (1)) * e53 == e53 * P53 - e53)%Q as Hring by ring.
    rewrite Hring, Hu53 in H. exact H.
  - (* the double is below a half *)
    pose proof (toDouble_near x Hx) as Hnear.
    pose proof (floorLog2_lt x Hx) as Hlt.
    assert (floorLog2 x + 1 ≤ -1)%Z as He by (unfold lastPlace in Hb; lia).
    pose proof (Qpower_le_compat_l 2 _ _ He ltac:(discriminate)) as Hhalf.
    assert (lastPlace x ≤ -54)%Z as Hb' by lia.
    pose proof (Qpower_le_compat_l 2 _ _ Hb' ltac:(discriminate)) as Hu.
    assert (Qpower 2 (-1) == 1 # 2)%Q as H1 by reflexivity.
    assert (Qpower 2 (-54) == (1 # 2) * Qpower 2 (-53))%Q as H54 by reflexivity.
    assert (Qpower 2 (-53) <= 1 # 8)%Q as Hsmall by (vm_compute; discriminate).
    rewrite H1 in Hhalf. rewrite H54 in Hu.
    revert Hnear Hlt Hhalf Hu Hsmall H53 Hfl Hfu Hd0.
    generalize (Qpower 2 (lastPlace x)). generalize (Qpower 2 (floorLog2 x + 1)).
    generalize (Qpower 2 (-53)). generalize (inject_Z (Qfloor (toDouble x))).
    generalize (toDouble x). intros. lra.
Qed.

(** One turn of the digit loop on a double below 1: the digit is a
    base-36 digit and what is left is a double below 1 again. *)
Lemma fraction_step (f : Q) :
  doubleBelowOne f →
  digitOk (Qfloor (toDouble (f * 36)))
  ∧ doubleBelowOne
      (toDouble (toDouble (f * 36) - inject_Z (Qfloor (toDouble (f * 36))))).
Proof.
  intros [H0 H1]. split.
  - apply (double_index_range f 36 H0 H1). lia.
  - apply toDouble_below_one, fraction_below_one.
    apply Qmult_le_0_compat; [exact H0 | discriminate].
Qed.

Lemma roundUp_ok ds : Forall digitOk ds → Forall digitOk (roundUp ds).1.
Proof.
  induction 1 as [|d ds Hd Hds IH]; cbn [roundUp]; [constructor|].
  destruct (Z.ltb_spec (d + 1) 36); cbn [fst]; [|done].
  constructor; [unfold digitOk in *; lia | done].
Qed.

(** On a double below 1 every digit the printer computes is a base-36
    digit. *)
Lemma fractionDigits_ok fuel : ∀ f delta acc,
  doubleBelowOne f → Forall digitOk acc →
  Forall digitOk (fractionDigits fuel f delta acc).1.
Proof.
  induction fuel as [|fuel IH]; intros f delta acc Hf Hacc; cbn [fractionDigits].
  - by apply Forall_rev.
  - cbv zeta. destruct (fraction_step f Hf) as (Hd & Hf').
    assert (Forall digitOk (Qfloor (toDouble (f * 36)) :: acc)) as Hacc' by (by constructor).
    destruct (_ && _).
    + pose proof (roundUp_ok _ Hacc') as Hr.
      destruct (roundUp (Qfloor (toDouble (f * 36)) :: acc)) as [ds carry].
      cbn [fst] in *. by apply Forall_rev.
    + destruct (Qle_bool _ _); [by apply IH | by apply Forall_rev].
Qed.

(** Every character the printer writes for a digit is a base-36 digit. *)
Lemma digitChar_base36 d : isBase36 (digitChar d) = true.
Proof.
  unfold digitChar. generalize (Z.to_nat d). intros k.
  do 36 (destruct k as [|k]; [reflexivity|]).
  cbn. destruct k; reflexivity.
Qed.

Lemma substring_digits n (cs : list ascii) :
  String.substring 0 n (string_of_list_ascii cs) = string_of_list_ascii (take n cs).
Proof.
  revert cs. induction n as [|n IH]; intros [|c cs]; simpl; try done.
  by rewrite IH.
Qed.

Lemma length_string_of_list (cs : list ascii) :
  String.length (string_of_list_ascii cs) = length cs.
Proof. induction cs as [|c cs IH]; simpl; [done | by rewrite IH]. Qed.

(** The printer rounds as the doubles do: the expansion stops as soon as
    the digits written tell the double from its neighbours, and a product
    that rounds up to the next digit is printed as that digit. *)
Lemma Number_toString36_samples :
  Number_toString36 (1 # 2) = "0.i"%string
  ∧ Number_toString36 (4128299658422955 # 4503599627370496) = "0.x"%string
  ∧ Number_toString36 (1511624874927597 # 4503599627370496) = "0.c2zzzzzzzzw"%string
  ∧ Number_toString36 (6305039478318694 # 9007199254740992) = "0.p777777777"%string
  ∧ Number_toString36 0 = "0"%string.
Proof. vm_compute. repeat split. Qed.

(** A sample in [0, 1) prints as one digit, followed by a point and
    fraction digits when there are any; the digits of a double are
    base-36 digits. *)
Lemma unitSample_toString36 (x : Q) :
  unitSample x →
  ∃ c ds, Number_toString36 x
          = String c (match ds with [] => EmptyString | _ => String "." (digitsString ds) end)
          ∧ (doubleBelowOne x → Forall digitOk ds).
Proof.
  intros [H0 H1]. unfold Number_toString36.
  assert (Qltb x 0 = false) as ->.
  { unfold Qltb. replace (Qle_bool 0 x) with true; [done|]. symmetry. by apply Qle_bool_iff. }
  assert (Qabs x = x) as -> by (by apply Qabs_nonneg).
  assert (Qfloor x = 0%Z) as ->.
  { destruct x as [p q]. unfold Qle, Qlt in *. simpl in *. apply Z.div_small. lia. }
  assert (∀ carry : bool, ∃ c, integerDigits kBufferHalf (if carry then (0 + 1)%Z else 0%Z) EmptyString
                               = String c EmptyString) as Hint.
  { intros [|]; eexists; reflexivity. }
  assert (doubleBelowOne x → doubleBelowOne (x - inject_Z 0)) as Hfrac.
  { intros [Hx0 Hx1]. change (x - inject_Z 0)%Q with (x + 0)%Q.
    split; rewrite Qplus_0_r; assumption. }
  destruct (Qle_bool (halfUlp x) (x - inject_Z 0)).
  - pose proof (λ Hx, fractionDigits_ok kBufferHalf _ (halfUlp x) [] (Hfrac Hx) (Forall_nil_2 _))
      as Hok.
    destruct (fractionDigits _ _ _ _) as [ds carry]. cbn [fst] in Hok.
    destruct (Hint carry) as [c ->]. exists c, ds. split; [|exact Hok].
    destruct ds; reflexivity.
  - destruct (Hint false) as [c Hc]. exists c, []. split; [|constructor].
    change (if false then (0 + 1)%Z else 0%Z) with 0%Z in Hc |- *.
    cbv zeta. cbn [String.append]. rewrite Hc. reflexivity.
Qed.

(** The random part of an identifier: the characters of the first
    fraction digits in the sample's string, five of them at most. *)
Lemma random_part (x : Q) :
  unitSample x →
  String.length (substr 2 5 (Number_toString36 x)) ≤ 5
  ∧ Forall (λ c, isBase36 c) (list_ascii_of_string (substr 2 5 (Number_toString36 x)))
  ∧ ∃ digits, substr 2 5 (Number_toString36 x) = digitsString digits
              ∧ (doubleBelowOne x → Forall digitOk digits).
Proof.
  intros Hx. destruct (unitSample_toString36 x Hx) as (c & ds & -> & Hok).
  unfold substr. destruct ds as [|d ds].
  { split; [simpl; lia|]. split; [constructor|]. exists []. split; [reflexivity | constructor]. }
  cbn [String.substring]. unfold digitsString. rewrite substring_digits.
  rewrite list_ascii_of_string_of_list_ascii. split; [|split].
  - rewrite length_string_of_list, length_take, length_fmap. lia.
  - apply Forall_take, Forall_fmap, Forall_forall. intros z _. simpl.
    by rewrite digitChar_base36.
  - exists (take 5 (d :: ds)). split; [by rewrite fmap_take|].
    intros Hd. by apply Forall_take, Hok.
Qed.


Lemma integerDigits_nonempty fuel : ∀ n c acc, integerDigits fuel n (String c acc) ≠ EmptyString.
Proof.
  induction fuel as [|fuel IH]; intros n c acc; cbn [integerDigits]; [done|].
  cbv zeta. destruct (_ <? _)%Z; [apply IH | done].
Qed.

Lemma integerDigits_written fuel n acc : integerDigits (S fuel) n acc ≠ EmptyString.
Proof.
  cbn [integerDigits]. cbv zeta. destruct (_ <? _)%Z; [apply integerDigits_nonempty | done].
Qed.

(** Reading back what [integerDigits] wrote gives the number written. *)
Lemma integerDigits_parse fuel : ∀ n acc a,
  (0 ≤ n < 36 ^ Z.of_nat fuel)%Z →
  ∃ k : nat, parseDigits a (integerDigits fuel n acc)
             = parseDigits (a * 36 ^ Z.of_nat k + n)%Z acc.
Proof.
  induction fuel as [|fuel IH]; intros n acc a Hn.
  - exists 0. simpl in *. f_equal. lia.
  - cbn [integerDigits]. cbv zeta.
    assert (0 ≤ n mod 36 < 36)%Z as Hr by (apply Z.mod_pos_bound; lia).
    assert ((n - n mod 36) / 36 = n / 36)%Z as -> by (Z.to_euclidean_division_equations; lia).
    assert (n = 36 * (n / 36) + n mod 36)%Z as Hdm by (apply Z.div_mod; lia).
    destruct (digitChar_cases (n mod 36) Hr) as [_ Hv].
    destruct (Z.ltb_spec 0 (n / 36)) as [Hq|Hq].
    + destruct (IH (n / 36)%Z (String (digitChar (n mod 36)) acc) a) as [k Hk].
      { split; [lia|]. apply Z.div_lt_upper_bound; [lia|].
        rewrite Nat2Z.inj_succ, Z.pow_succ_r in Hn by lia. lia. }
      exists (S k). rewrite Hk. cbn [parseDigits]. rewrite Hv. f_equal.
      rewrite Nat2Z.inj_succ, Z.pow_succ_r by lia. lia.
    + exists 1. cbn [parseDigits]. rewrite Hv. f_equal.
      assert (n / 36 = 0)%Z by (pose proof (Z.div_pos n 36); lia).
      change (36 ^ Z.of_nat 1)%Z with 36%Z. lia.
Qed.

Lemma parseInt36_digits s v :
  s ≠ EmptyString → parseDigits 0 s = Some v → parseInt36 s = Some v.
Proof.
  destruct s as [|c s]; [done|]. intros _ H. unfold parseInt36.
  destruct c as [[] [] [] [] [] [] [] []]; try exact H.
  cbn in H. discriminate.
Qed.

Lemma halfUlp_pos x : (0 < halfUlp x)%Q.
Proof. unfold halfUlp. destruct (Qle_bool x 0); apply Qpower_0_lt; reflexivity. Qed.

Lemma append_String c (s t : string) : (String c s +:+ t)%string = String c (s +:+ t).
Proof. reflexivity. Qed.

Lemma append_empty (s : string) : (s +:+ EmptyString)%string = s.
Proof. induction s as [|c s IH]; [done | by rewrite append_String, IH]. Qed.

(** [Date.now().toString(36)] is the base-36 numeral of the time value. *)
Lemma timestamp_toString36 (now : Z) :
  Number_toString36 (inject_Z now)
  = ((if (now <? 0)%Z then "-" else EmptyString) +:+ integerDigits kBufferHalf (Z.abs now) EmptyString)%string.
Proof.
  unfold Number_toString36.
  assert (Qltb (inject_Z now) 0 = (now <? 0)%Z) as ->.
  { unfold Qltb, Qle_bool, inject_Z. simpl. rewrite Z.mul_1_r.
    destruct (Z.ltb_spec now 0), (Z.leb_spec 0 now); simpl; try done; lia. }
  change (Qabs (inject_Z now)) with (inject_Z (Z.abs now)).
  rewrite Qfloor_Z.
  assert (Qle_bool (halfUlp (inject_Z (Z.abs now))) (inject_Z (Z.abs now) - inject_Z (Z.abs now))
          = false) as ->.
  { destruct (Qle_bool _ _) eqn:H; [|done]. apply Qle_bool_iff in H.
    pose proof (halfUlp_pos (inject_Z (Z.abs now))). lra. }
  cbv zeta. by rewrite append_empty.
Qed.

Lemma timestamp_roundtrip (now : Z) :
  (Z.abs now ≤ maxTimeValue)%Z → parseInt36 (Number_toString36 (inject_Z now)) = Some now.
Proof.
  intros Hnow. rewrite timestamp_toString36.
  destruct (integerDigits_parse kBufferHalf (Z.abs now) EmptyString 0) as [k Hk].
  { split; [lia|]. eapply Z.le_lt_trans; [exact Hnow|].
    apply Z.lt_le_trans with (36 ^ 11)%Z; [reflexivity|].
    apply Z.pow_le_mono_r; [lia | unfold kBufferHalf; lia]. }
  cbn [parseDigits] in Hk. rewrite Z.mul_0_l, Z.add_0_l in Hk.
  destruct (Z.ltb_spec now 0) as [Hneg|Hpos].
  - change (parseInt36 ("-" +:+ ?s)) with (Z.opp <$> parseDigits 0 s).
    rewrite Hk. simpl. f_equal. lia.
  - change (EmptyString +:+ ?s)%string with s. apply parseInt36_digits.
    + apply (integerDigits_written 1099).
    + rewrite Hk. f_equal. lia.
Qed.

(** C6 (as stated, refuted): when [Math.random()] returns 0.5 its base-36
    string is "0.i", the random part of the identifier is the single
    character "i", and no five characters follow the timestamp. *)
Lemma ticketId_random_part_can_be_short :
  unitSample (1 # 2)
  ∧ ticketIdOf 1700000000000 (1 # 2) = "loyw3v28i"%string
  ∧ Number_toString36 (inject_Z 1700000000000) = "loyw3v28"%string
  ∧ ¬ ∃ random, ticketIdOf 1700000000000 (1 # 2)
                = (Number_toString36 (inject_Z 1700000000000) +:+ random)%string
                ∧ String.length random = 5.
Proof.
  split; [unfold unitSample, Qle, Qlt; simpl; lia|].
  split; [vm_compute; reflexivity|]. split; [vm_compute; reflexivity|].
  intros (random & Heq & Hlen).
  replace (ticketIdOf 1700000000000 (1 # 2)) with "loyw3v28i"%string in Heq
    by (vm_compute; reflexivity).
  replace (Number_toString36 (inject_Z 1700000000000)) with "loyw3v28"%string in Heq
    by (vm_compute; reflexivity).
  vm_compute in Heq. assert (random = "i"%string) as -> by congruence.
  simpl in Hlen. lia.
Qed.

(** C6 (amended): the string returned by generateUniqueTicketId is the
    base-36 numeral of the timestamp followed by at most 5 base-36
    characters: those that follow the point in the sample's
    [toString(36)], cut after the fifth (fewer than 5, possibly none, when
    that string is shorter), for every time value and every sample in
    [0, 1).  They are the characters of the first fraction digits the
    printer computes, which for a sample that is a double are digits
    from 0 to 35. *)
Theorem generateUniqueTicketId_shape env w :
  (Z.abs (Date_now env (clocks w)) ≤ maxTimeValue)%Z →
  unitSample (Math_random env (randoms w)) →
  ∃ timestamp random,
    (generateUniqueTicketId env w).1 = Returned (timestamp +:+ random)%string
    ∧ timestamp = Number_toString36 (inject_Z (Date_now env (clocks w)))
    ∧ parseInt36 timestamp = Some (Date_now env (clocks w))
    ∧ random = substr 2 5 (Number_toString36 (Math_random env (randoms w)))
    ∧ String.length random ≤ 5
    ∧ Forall (λ c, isBase36 c) (list_ascii_of_string random)
    ∧ ∃ digits, random = digitsString digits
                ∧ (doubleBelowOne (Math_random env (randoms w)) → Forall digitOk digits).
Proof.
  intros Hnow Hsample.
  exists (Number_toString36 (inject_Z (Date_now env (clocks w)))),
         (substr 2 5 (Number_toString36 (Math_random env (randoms w)))).
  split; [reflexivity|]. split; [reflexivity|].
  split; [by apply timestamp_roundtrip|]. split; [reflexivity|].
  by apply random_part.
Qed.

Lemma generateUniqueTicketId_shape_witness :
  ∃ timestamp random,
    (generateUniqueTicketId demoEnv (mkWorld [] [] 5 0 0)).1
    = Returned (timestamp +:+ random)%string
    ∧ timestamp = Number_toString36 (inject_Z (Date_now demoEnv (clocks (mkWorld [] [] 5 0 0))))
    ∧ parseInt36 timestamp = Some (Date_now demoEnv (clocks (mkWorld [] [] 5 0 0)))
    ∧ random = substr 2 5 (Number_toString36 (Math_random demoEnv (randoms (mkWorld [] [] 5 0 0))))
    ∧ String.length random ≤ 5
    ∧ Forall (λ c, isBase36 c) (list_ascii_of_string random)
    ∧ ∃ digits, random = digitsString digits
                ∧ (doubleBelowOne (Math_random demoEnv (randoms (mkWorld [] [] 5 0 0)))
                   → Forall digitOk digits).
Proof.
  apply (generateUniqueTicketId_shape demoEnv (mkWorld [] [] 5 0 0)).
  - vm_compute. discriminate.
  - apply cycleSource_unit.
Defined.


(** ** Properties of the handlers *)

Lemma find_none_unknown (w : World) uname :
  unknownUser w uname →
  List.find (λ u, String.eqb (username u) uname) (users w) = None.
Proof.
  unfold unknownUser. induction (users w) as [|u us IH]; intros H; [done|].
  apply Forall_cons in H as [Hu Hus]. simpl.
  destruct (String.eqb_spec (username u) uname); [done | auto].
Qed.

(** The paths of POST /login, one by one. *)
Lemma login_cases env b w :
  login env b w =
  if storeFails env (dbOps w) then (internalError, countOp w)
  else match List.find (λ u, String.eqb (username u) (login_username b)) (users w) with
       | None => (mkResponse 401 (Message "Invalid username or password"), countOp w)
       | Some user =>
           match login_password b with
           | NotStr _ => (internalError, countOp w)
           | Str pw =>
               if bcrypt_compare env pw (password user)
               then (mkResponse 200 (Token (jwt_sign env (username user) "secret-key")),
                     countOp w)
               else (mkResponse 401 (Message "Invalid username or password"), countOp w)
           end
       end.
Proof.
  unfold login, tryCatch, mbind, M_bind, mret, M_ret, User_findOne, dbCall, bcryptCompare.
  destruct (storeFails env (dbOps w)); [reflexivity|]. cbn [users countOp].
  destruct (List.find _ (users w)) as [u|]; [|reflexivity].
  destruct (login_password b) as [pw|shown]; [|reflexivity].
  destruct (bcrypt_compare env pw (password u)); reflexivity.
Qed.

(** C7 (the code at the failing input): when the password of a login is
    not a string (it is missing, or a number), [bcrypt.compare] rejects
    for a username the store knows and the catch answers 500 "An error
    occurred", while a username the store does not know is answered 401
    "Invalid username or password" before the password is looked at: the
    two responses differ, and tell whether the username exists. *)
Theorem login_password_not_a_string_tells_users_apart env w b1 b2 :
  storeUp env w →
  unknownUser w (login_username b1) → knownUser w (login_username b2) →
  isStr (login_password b2) = false →
  (login env b1 w).1 = mkResponse 401 (Message "Invalid username or password")
  ∧ (login env b2 w).1 = mkResponse 500 (Message "An error occurred")
  ∧ (login env b1 w).1 ≠ (login env b2 w).1.
Proof.
  intros Hup Hunk [u Hfind] Hraw. unfold storeUp in Hup.
  assert ((login env b1 w).1 = mkResponse 401 (Message "Invalid username or password")) as H1.
  { rewrite login_cases, Hup, (find_none_unknown w _ Hunk). reflexivity. }
  assert ((login env b2 w).1 = mkResponse 500 (Message "An error occurred")) as H2.
  { rewrite login_cases, Hup, Hfind.
    destruct (login_password b2) as [pw|shown]; [discriminate Hraw | reflexivity]. }
  split; [exact H1|]. split; [exact H2|]. rewrite H1, H2. discriminate.
Qed.

Lemma login_password_not_a_string_tells_users_apart_witness :
  (login demoEnv (mkLoginBody "bob" (NotStr EmptyString)) aliceWorld).1
  = mkResponse 401 (Message "Invalid username or password")
  ∧ (login demoEnv (mkLoginBody "alice" (NotStr EmptyString)) aliceWorld).1
    = mkResponse 500 (Message "An error occurred")
  ∧ (login demoEnv (mkLoginBody "bob" (NotStr EmptyString)) aliceWorld).1
    ≠ (login demoEnv (mkLoginBody "alice" (NotStr EmptyString)) aliceWorld).1.
Proof.
  apply (login_password_not_a_string_tells_users_apart demoEnv aliceWorld
           (mkLoginBody "bob" (NotStr EmptyString)) (mkLoginBody "alice" (NotStr EmptyString))).
  - reflexivity.
  - repeat constructor. simpl. discriminate.
  - exists alice. reflexivity.
  - reflexivity.
Defined.


Lemma notEmpty_false s : notEmpty s = false ↔ s = EmptyString.
Proof.
  unfold notEmpty. destruct (String.eqb_spec s EmptyString); split; intros; try done.
Qed.

Lemma validationResult_nil env b :
  validationResult env b = [] ↔
  trim (reg_username b) ≠ EmptyString ∧ 6 ≤ String.length (shownAs (reg_password b))
  ∧ isEmail env (reg_email b) = true ∧ trim (reg_name b) ≠ EmptyString.
Proof.
  unfold validationResult, isLength6.
  destruct (notEmpty (trim (reg_username b))) eqn:Hu;
    destruct (Nat.leb_spec 6 (String.length (shownAs (reg_password b)))) as [Hp|Hp];
    destruct (isEmail env (reg_email b)) eqn:He;
    destruct (notEmpty (trim (reg_name b))) eqn:Hn; simpl;
    (split; [intros Hnil; try discriminate Hnil | intros (H1 & H2 & H3 & H4)]);
    try (apply notEmpty_false in Hu); try (apply notEmpty_false in Hn);
    try done; try lia.
  repeat split; try done; intros H; apply notEmpty_false in H; congruence.
Qed.

Lemma find_or_exists (w : World) uname mail :
  (∃ u, List.find (λ u, String.eqb (username u) uname || String.eqb (email u) mail)
                  (users w) = Some u)
  ↔ ∃ u, u ∈ users w ∧ (username u = uname ∨ email u = mail).
Proof.
  split.
  - intros [u Hu]. apply List.find_some in Hu as [Hin Hb]. exists u.
    split; [by apply list_elem_of_In|].
    apply orb_true_iff in Hb as [Hb|Hb]; apply String.eqb_eq in Hb; auto.
  - intros (u & Hin & Hu).
    destruct (List.find _ (users w)) as [u'|] eqn:Hf; [eauto|].
    apply list_elem_of_In in Hin. pose proof (List.find_none _ _ Hf u Hin) as Hb.
    simpl in Hb. apply orb_false_iff in Hb as [H1 H2].
    apply String.eqb_neq in H1, H2. tauto.
Qed.

(** The paths of POST /register, one by one. *)
Lemma register_cases env b w :
  register env b w =
  match validationResult env b with
  | [] =>
      if storeFails env (dbOps w) then (internalError, countOp w)
      else
        match List.find (λ u, String.eqb (username u) (trim (reg_username b))
                              || String.eqb (email u) (normalizeEmail env (reg_email b)))
                        (users w) with
        | Some _ => (conflictError, countOp w)
        | None =>
            if negb (isStr (reg_password b)) then (internalError, countOp w)
            else if storeFails env (S (dbOps w)) then (internalError, countOp (countOp w))
            else if existsb (λ u, String.eqb (username u) (trim (reg_username b))
                                  || String.eqb (email u) (normalizeEmail env (reg_email b)))
                            (users w)
                 then (internalError, countOp (countOp w))
                 else (mkResponse 200 (Message "User registered successfully"),
                       mkWorld (users w ++ [mkUser (trim (reg_username b))
                                              (bcrypt_hash env (shownAs (reg_password b)))
                                              (normalizeEmail env (reg_email b))
                                              (trim (reg_name b))])
                               (tickets w) (randoms w) (clocks w) (S (S (dbOps w))))
        end
  | errors => (mkResponse 400 (Errors errors), w)
  end.
Proof.
  unfold register, tryCatch, mbind, M_bind, mret, M_ret, User_findOne_or, User_create, dbCall,
    bcryptHash.
  destruct (validationResult env b); [|reflexivity]. cbn [isEmpty negb].
  destruct (storeFails env (dbOps w)); [reflexivity|]. cbn [users countOp dbOps].
  destruct (List.find _ (users w)); [reflexivity|].
  destruct (reg_password b) as [pw|shown]; [|reflexivity].
  cbn [users countOp dbOps username email isStr negb shownAs].
  destruct (storeFails env (S (dbOps w))); [reflexivity|].
  destruct (existsb _ (users w)); reflexivity.
Qed.

(** C8 (as stated, refuted): a username of two spaces is not empty, yet
    with a valid password, email and name the request is answered with
    the 400 validation error: the chain trims the username before it tests
    it. *)
Lemma register_rejects_blank_username :
  isValidationError
    (register demoEnv (mkRegisterBody "  " (Str "secret1") "a@x.com" "Alice") emptyWorld).1
  ∧ ¬ ("  "%string = EmptyString ∨ String.length "secret1" < 6
       ∨ isEmail demoEnv "a@x.com" = false ∨ "Alice"%string = EmptyString).
Proof.
  split.
  - exists ["username"%string]. reflexivity.
  - vm_compute. intros [H|[H|[H|H]]]; try discriminate. lia.
Qed.

(** C8 (amended): register answers with the 400 validation error exactly
    when the username is empty after trimming, the password is shorter
    than 6 (for a password that is no string, the string the validator
    tests in its place), the email is not valid, or the name is empty
    after trimming;
    and for input that passes, when the store answers the lookup, it
    answers with the 400 conflict error exactly when some user of the
    store has the trimmed username or the normalized email, and then the
    users of the store are unchanged. *)
Theorem register_errors env b w :
  (isValidationError (register env b w).1 ↔
     trim (reg_username b) = EmptyString ∨ String.length (shownAs (reg_password b)) < 6
     ∨ isEmail env (reg_email b) = false ∨ trim (reg_name b) = EmptyString)
  ∧ (validationResult env b = [] → storeUp env w →
     ((register env b w).1 = conflictError ↔
        ∃ u, u ∈ users w ∧ (username u = trim (reg_username b)
                            ∨ email u = normalizeEmail env (reg_email b)))
     ∧ ((register env b w).1 = conflictError → users (register env b w).2 = users w)).
Proof.
  pose proof (validationResult_nil env b) as Hnil.
  pose proof (find_or_exists w (trim (reg_username b)) (normalizeEmail env (reg_email b))) as Hex.
  rewrite register_cases. unfold storeUp, isValidationError, conflictError, internalError.
  destruct (validationResult env b) as [|e errs] eqn:Hv.
  - split.
    + split.
      * intros [errors Herr]. exfalso. revert Herr.
        destruct (storeFails env (dbOps w)); [discriminate|].
        destruct (List.find _ (users w)); [discriminate|].
        destruct (negb (isStr (reg_password b))); [discriminate|].
        destruct (storeFails env (S (dbOps w))); [discriminate|].
        destruct (existsb _ (users w)); discriminate.
      * intros H. exfalso. destruct Hnil as [Hnil _].
        destruct (Hnil eq_refl) as (H1 & H2 & H3 & H4).
        destruct H as [H|[H|[H|H]]]; [done | lia | congruence | done].
    + intros _ Hup. rewrite Hup.
      destruct (List.find _ (users w)) as [u|] eqn:Hf; cbn [fst snd].
      * split; [|done]. split; [intros _|done]. apply Hex. eauto.
      * assert (¬ ∃ u, u ∈ users w ∧ (username u = trim (reg_username b)
                       ∨ email u = normalizeEmail env (reg_email b))) as Hno.
        { intros H. apply Hex in H as [u Hu]. discriminate. }
        destruct (negb (isStr (reg_password b))); cbn [fst snd];
          [split; [split; [discriminate | done] | discriminate]|].
        destruct (storeFails env (S (dbOps w))); cbn [fst snd].
        -- split; [split; [discriminate | done] | discriminate].
        -- destruct (existsb _ (users w)); cbn [fst snd];
             (split; [split; [discriminate | done] | discriminate]).
  - split; [|discriminate].
    cbn [fst]. split; [intros _ | eauto].
    destruct (decide (trim (reg_username b) = EmptyString)) as [|H1]; [auto|].
    destruct (Nat.lt_ge_cases (String.length (shownAs (reg_password b))) 6) as [|H2]; [auto|].
    destruct (isEmail env (reg_email b)) eqn:H3; [|auto].
    destruct (decide (trim (reg_name b) = EmptyString)) as [|H4]; [auto|].
    destruct Hnil as [_ Hnil]. discriminate Hnil. auto.
Qed.

Lemma register_errors_witness :
  ((register demoEnv (mkRegisterBody " alice" (Str "secret1") "b@x.com" "Alice") aliceWorld).1
     = conflictError ↔
   ∃ u, u ∈ users aliceWorld ∧ (username u = trim " alice"
                                 ∨ email u = normalizeEmail demoEnv "b@x.com"))
  ∧ ((register demoEnv (mkRegisterBody " alice" (Str "secret1") "b@x.com" "Alice") aliceWorld).1
       = conflictError →
     users (register demoEnv (mkRegisterBody " alice" (Str "secret1") "b@x.com" "Alice") aliceWorld).2
     = users aliceWorld).
Proof.
  apply (register_errors demoEnv (mkRegisterBody " alice" (Str "secret1") "b@x.com" "Alice") aliceWorld);
    reflexivity.
Defined.









(** What the loop test makes of some values of [numTickets]: a missing
    field, null, false, zero, a negative number and a plain object give a
    bound that is not positive; true gives 1. *)
Lemma ToNumber_samples (f : string → Number) :
  ToNumber f None = Returned NaN
  ∧ ToNumber f (Some JNull) = Returned (Finite 0)
  ∧ ToNumber f (Some (JBool false)) = Returned (Finite 0)
  ∧ ToNumber f (Some (JBool true)) = Returned (Finite 1)
  ∧ ToNumber f (Some (JNum (Finite (-3)))) = Returned (Finite (-3))
  ∧ ToNumber f (Some (JObj [("n"%string, JNum (Finite 2))])) = Returned NaN
  ∧ ToNumber f (Some (JArr [JNum (Finite 2)])) = Returned (Finite 2)
  ∧ ToNumber f (Some (JObj [("toString"%string, JNull)])) = Thrown.
Proof. repeat split. Qed.


Lemma lessThan_turns i q :
  (0 ≤ i)%Z → lessThan i (Finite q) = bool_decide (i < Z.of_nat (turns q))%Z.
Proof.
  intros Hi. unfold lessThan, Qltb, turns.
  pose proof (Qle_ceiling q) as Hle. pose proof (Qceiling_lt q) as Hlt.
  destruct (Qle_bool q (inject_Z i)) eqn:Hb.
  - apply Qle_bool_iff in Hb. cbn [negb]. symmetry. apply bool_decide_eq_false.
    assert (Qceiling q ≤ i)%Z; [|lia].
    destruct (Z.le_gt_cases (Qceiling q) i) as [|Hgt]; [done|]. exfalso.
    assert (inject_Z i <= inject_Z (Qceiling q - 1))%Q by (rewrite <- Zle_Qle; lia).
    eapply Qlt_irrefl, Qlt_le_trans; [exact Hlt|]. by eapply Qle_trans.
  - cbn [negb]. symmetry. apply bool_decide_eq_true.
    assert (i < Qceiling q)%Z; [|lia].
    destruct (Z.lt_ge_cases i (Qceiling q)) as [|Hge]; [done|]. exfalso.
    assert (Qle_bool q (inject_Z i) = true) as Ht; [|congruence].
    apply Qle_bool_iff. eapply Qle_trans; [exact Hle|]. rewrite <- Zle_Qle. lia.
Qed.






(** ** Further properties: registration and login *)

Lemma find_none_existsb {A} (f : A → bool) (l : list A) :
  List.find f l = None → existsb f l = false.
Proof.
  induction l as [|x l IH]; [done|]. simpl. destruct (f x); [done | exact IH].
Qed.

Lemma find_snoc_none {A} (f : A → bool) (l : list A) (x : A) :
  List.find f l = None → List.find f (l ++ [x]) = if f x then Some x else None.
Proof.
  induction l as [|y l IH]; [done|]. simpl. destruct (f y); [done | exact IH].
Qed.

(** The paths of POST /register once the lookup has found nobody: a
    password that is not a string stops the handler at [bcrypt.hash], and
    the insert cannot be refused by the unique index. *)
Lemma register_cases_free env b w :
  validationResult env b = [] → storeFails env (dbOps w) = false →
  List.find (λ u, String.eqb (username u) (trim (reg_username b))
                  || String.eqb (email u) (normalizeEmail env (reg_email b)))
            (users w) = None →
  register env b w =
  if negb (isStr (reg_password b)) then (internalError, countOp w)
  else if storeFails env (S (dbOps w)) then (internalError, countOp (countOp w))
  else (mkResponse 200 (Message "User registered successfully"),
        mkWorld (users w ++ [mkUser (trim (reg_username b))
                               (bcrypt_hash env (shownAs (reg_password b)))
                               (normalizeEmail env (reg_email b))
                               (trim (reg_name b))])
                (tickets w) (randoms w) (clocks w) (S (S (dbOps w)))).
Proof.
  intros Hv Hup Hf. rewrite register_cases, Hv, Hup, Hf.
  by rewrite (find_none_existsb _ _ Hf).
Qed.

(** What POST /register does to the users: nothing, or, after a lookup
    that found nobody, one record added. *)
Lemma register_users env b w :
  users (register env b w).2 = users w
  ∨ ((∀ u, u ∈ users w → username u ≠ trim (reg_username b)
                         ∧ email u ≠ normalizeEmail env (reg_email b))
     ∧ validationResult env b = []
     ∧ users (register env b w).2
       = users w ++ [mkUser (trim (reg_username b))
                            (bcrypt_hash env (shownAs (reg_password b)))
                            (normalizeEmail env (reg_email b)) (trim (reg_name b))]).
Proof.
  pose proof (find_or_exists w (trim (reg_username b)) (normalizeEmail env (reg_email b))) as Hex.
  rewrite register_cases.
  destruct (validationResult env b) as [|e errs] eqn:Hv; [|by left].
  destruct (storeFails env (dbOps w)) eqn:Hup; [by left|].
  destruct (List.find _ (users w)) as [u|] eqn:Hf; [by left|].
  rewrite (find_none_existsb _ _ Hf).
  destruct (negb (isStr (reg_password b))); [by left|].
  destruct (storeFails env (S (dbOps w))); [by left|]. right.
  split; [|done]. intros u Hu.
  split; intros Heq; (destruct (proj2 Hex) as [u' Hu']; [eauto | discriminate]).
Qed.

(** X1: POST /register answers 200 exactly when the body passes
    validation, the password is a string, the store answers the lookup
    and the insert, and no user has the trimmed username or the
    normalized email; then the users gain one record holding the trimmed
    username, the hash of the password, the normalized email and the
    trimmed name.  On any other answer the users are unchanged, and the
    tickets are never touched. *)
Theorem register_success_iff env b w :
  (status (register env b w).1 = 200 ↔
     validationResult env b = [] ∧ isStr (reg_password b) = true
     ∧ storeFails env (dbOps w) = false ∧ storeFails env (S (dbOps w)) = false
     ∧ ¬ ∃ u, u ∈ users w ∧ (username u = trim (reg_username b)
                             ∨ email u = normalizeEmail env (reg_email b)))
  ∧ (status (register env b w).1 = 200 →
     ∃ pw, reg_password b = Str pw
           ∧ users (register env b w).2
             = users w ++ [mkUser (trim (reg_username b)) (bcrypt_hash env pw)
                                  (normalizeEmail env (reg_email b)) (trim (reg_name b))])
  ∧ (status (register env b w).1 ≠ 200 → users (register env b w).2 = users w)
  ∧ tickets (register env b w).2 = tickets w.
Proof.
  pose proof (find_or_exists w (trim (reg_username b)) (normalizeEmail env (reg_email b))) as Hex.
  rewrite register_cases.
  destruct (validationResult env b) as [|e errs] eqn:Hv.
  2: { cbn [fst snd status]. repeat split; try done; [intros (H & _); done]. }
  destruct (storeFails env (dbOps w)) eqn:Hup.
  { cbn [fst snd status countOp users tickets]. repeat split; try done.
    intros (_ & _ & H & _). done. }
  destruct (List.find _ (users w)) as [u|] eqn:Hf.
  { cbn [fst snd status countOp users tickets conflictError]. repeat split; try done.
    intros (_ & _ & _ & _ & H). exfalso. apply H, Hex. eauto. }
  assert (¬ ∃ u, u ∈ users w ∧ (username u = trim (reg_username b)
                 ∨ email u = normalizeEmail env (reg_email b))) as Hno.
  { intros H. apply Hex in H as [u Hu]. discriminate. }
  rewrite (find_none_existsb _ _ Hf).
  destruct (reg_password b) as [pw|shown]; cbn [isStr negb shownAs].
  2: { cbn [fst snd status countOp users tickets internalError]. repeat split; try done.
       intros (_ & H & _). done. }
  destruct (storeFails env (S (dbOps w))) eqn:Hup2;
    cbn [fst snd status countOp users tickets internalError]; repeat split; try done.
  - intros (_ & _ & _ & H & _). done.
  - intros _. by exists pw.
Qed.

Lemma register_success_iff_witness :
  ∃ pw, reg_password (mkRegisterBody " bob " (Str "hunter22") "bob@x.com" "Bob ") = Str pw
        ∧ users (register demoEnv (mkRegisterBody " bob " (Str "hunter22") "bob@x.com" "Bob ")
                   aliceWorld).2
          = users aliceWorld ++ [mkUser (trim " bob ") (bcrypt_hash demoEnv pw)
                                        (normalizeEmail demoEnv "bob@x.com") (trim "Bob ")].
Proof.
  apply (register_success_iff demoEnv (mkRegisterBody " bob " (Str "hunter22") "bob@x.com" "Bob ")
           aliceWorld).
  reflexivity.
Defined.



(** X3: POST /register keeps usernames and emails unique: when no two
    users share a username or an email before a request, none do after
    it, whatever the request and its outcome. *)
Theorem register_keeps_unique env b w :
  uniqueUsers w → uniqueUsers (register env b w).2.
Proof.
  intros [Hu He]. unfold uniqueUsers.
  destruct (register_users env b w) as [->|(Hfree & _ & ->)]; [done|].
  rewrite !fmap_app. cbn [fmap list_fmap username email].
  split; apply NoDup_app; (split; [done|]); (split; [|apply NoDup_singleton]);
    intros x Hx Hx'; apply list_elem_of_singleton in Hx'; subst x;
    apply list_elem_of_fmap in Hx as (u & Hux & Hin);
    destruct (Hfree u Hin); congruence.
Qed.


(** *** Trimming *)

Lemma rev_app_list (s1 s2 : string) :
  list_ascii_of_string (String.rev_app s1 s2)
  = rev (list_ascii_of_string s1) ++ list_ascii_of_string s2.
Proof.
  revert s2. induction s1 as [|c s1 IH]; intros s2; [done|].
  cbn [String.rev_app list_ascii_of_string]. rewrite IH. cbn [list_ascii_of_string rev].
  by rewrite <- (assoc_L (++)).
Qed.

Lemma rev_list (s : string) :
  list_ascii_of_string (String.rev s) = rev (list_ascii_of_string s).
Proof. unfold String.rev. rewrite rev_app_list. apply app_nil_r. Qed.

Lemma list_ascii_inj (s1 s2 : string) :
  list_ascii_of_string s1 = list_ascii_of_string s2 → s1 = s2.
Proof.
  intros H. rewrite <- (string_of_list_ascii_of_string s1), H.
  apply string_of_list_ascii_of_string.
Qed.

Lemma rev_rev (s : string) : String.rev (String.rev s) = s.
Proof. apply list_ascii_inj. by rewrite !rev_list, rev_involutive. Qed.

Lemma trimStart_clean s : startsClean (trimStart s).
Proof.
  induction s as [|c s IH]; [done|]. cbn [trimStart].
  destruct (isSpace c) eqn:Hc; [exact IH | exact Hc].
Qed.

Lemma trimStart_fixed s : startsClean s → trimStart s = s.
Proof. destruct s as [|c s]; [done|]. cbn [startsClean trimStart]. by intros ->. Qed.

Lemma trimStart_suffix s :
  ∃ p, list_ascii_of_string s = p ++ list_ascii_of_string (trimStart s).
Proof.
  induction s as [|c s [p IH]]; [by exists []|]. cbn [trimStart].
  destruct (isSpace c); [|by exists []].
  exists (c :: p). cbn [list_ascii_of_string]. by rewrite IH.
Qed.

Lemma startsClean_list s :
  startsClean s ↔ match list_ascii_of_string s with
                  | c :: _ => isSpace c = false
                  | [] => True
                  end.
Proof. by destruct s. Qed.

(** Reversing what is left of a reversed clean string after trimming its
    start gives a clean string again. *)
Lemma trimStart_rev_clean t :
  startsClean t → startsClean (String.rev (trimStart (String.rev t))).
Proof.
  intros Ht. destruct (trimStart_suffix (String.rev t)) as [p Hp].
  rewrite rev_list in Hp. apply rev_eq_app in Hp.
  apply startsClean_list. rewrite rev_list.
  apply startsClean_list in Ht. rewrite Hp in Ht.
  destruct (rev (list_ascii_of_string (trimStart (String.rev t)))); [done | exact Ht].
Qed.

Lemma trim_idem s : trim (trim s) = trim s.
Proof.
  unfold trim.
  pose proof (trimStart_rev_clean (trimStart s) (trimStart_clean s)) as Hclean.
  rewrite (trimStart_fixed _ Hclean), rev_rev.
  by rewrite (trimStart_fixed _ (trimStart_clean _)).
Qed.

(** What a 200 from POST /register tells. *)
Lemma register_200 env b w :
  status (register env b w).1 = 200 →
  validationResult env b = []
  ∧ List.find (λ u, String.eqb (username u) (trim (reg_username b))
                    || String.eqb (email u) (normalizeEmail env (reg_email b)))
              (users w) = None
  ∧ reg_password b = Str (shownAs (reg_password b))
  ∧ register env b w
    = (mkResponse 200 (Message "User registered successfully"),
       mkWorld (users w ++ [mkUser (trim (reg_username b))
                              (bcrypt_hash env (shownAs (reg_password b)))
                              (normalizeEmail env (reg_email b))
                              (trim (reg_name b))])
               (tickets w) (randoms w) (clocks w) (S (S (dbOps w)))).
Proof.
  rewrite register_cases.
  destruct (validationResult env b) as [|e errs] eqn:Hv; [|discriminate].
  destruct (storeFails env (dbOps w)) eqn:Hup; [discriminate|].
  destruct (List.find _ (users w)) as [u|] eqn:Hf; [discriminate|].
  rewrite (find_none_existsb _ _ Hf).
  destruct (reg_password b) as [pw|shown]; [|discriminate]. cbn [isStr negb shownAs].
  destruct (storeFails env (S (dbOps w))) eqn:Hup2; [discriminate | done].
Qed.

(** X4: POST /register keeps every stored username and name trimmed and
    not empty: trimming what the handler stores changes nothing. *)
Theorem register_keeps_trimmed env b w :
  trimmedUsers w → trimmedUsers (register env b w).2.
Proof.
  intros Hw. unfold trimmedUsers.
  destruct (register_users env b w) as [->|(_ & Hv & ->)]; [done|].
  apply Forall_app. split; [done|]. constructor; [|constructor].
  apply validationResult_nil in Hv as (Hu & _ & _ & Hn).
  cbn [username name]. unfold trimmed. by rewrite !trim_idem.
Qed.

Lemma register_keeps_trimmed_witness :
  trimmedUsers (register demoEnv (mkRegisterBody "  bob " (Str "hunter22") "bob@x.com" " Bob") aliceWorld).2.
Proof.
  apply (register_keeps_trimmed demoEnv (mkRegisterBody "  bob " (Str "hunter22") "bob@x.com" " Bob")
           aliceWorld).
  repeat constructor; cbn; congruence.
Defined.

Lemma register_keeps_unique_witness :
  uniqueUsers (register demoEnv (mkRegisterBody "bob" (Str "hunter22") "bob@x.com" "Bob") aliceWorld).2.
Proof.
  apply (register_keeps_unique demoEnv (mkRegisterBody "bob" (Str "hunter22") "bob@x.com" "Bob")
           aliceWorld).
  split; apply NoDup_singleton.
Defined.

(** X5: a second POST /register with the body of one that was answered
    200 is answered with the 400 conflict error, when the store answers
    its lookup, and adds no user. *)
Theorem register_twice_conflicts env b w :
  status (register env b w).1 = 200 → storeUp env (register env b w).2 →
  (register env b (register env b w).2).1 = conflictError
  ∧ users (register env b (register env b w).2).2 = users (register env b w).2.
Proof.
  intros H200 Hup. destruct (register_200 env b w H200) as (Hv & Hf & _ & Heq).
  rewrite Heq in Hup |- *. cbn [snd] in *. unfold storeUp in Hup.
  rewrite register_cases, Hv, Hup. cbn [users].
  rewrite (find_snoc_none _ _ _ Hf). cbn [username email].
  rewrite String.eqb_refl. done.
Qed.

Lemma register_twice_conflicts_witness :
  (register demoEnv (mkRegisterBody "bob" (Str "hunter22") "bob@x.com" "Bob")
     (register demoEnv (mkRegisterBody "bob" (Str "hunter22") "bob@x.com" "Bob") aliceWorld).2).1
  = conflictError
  ∧ users (register demoEnv (mkRegisterBody "bob" (Str "hunter22") "bob@x.com" "Bob")
             (register demoEnv (mkRegisterBody "bob" (Str "hunter22") "bob@x.com" "Bob") aliceWorld).2).2
    = users (register demoEnv (mkRegisterBody "bob" (Str "hunter22") "bob@x.com" "Bob") aliceWorld).2.
Proof.
  apply (register_twice_conflicts demoEnv (mkRegisterBody "bob" (Str "hunter22") "bob@x.com" "Bob")
           aliceWorld); reflexivity.
Defined.

(** X6: after a POST /register answered 200, a POST /login with the
    trimmed username and the same password is answered 200 with the token
    signed for that username, when the store answers the lookup and
    [bcrypt.compare] accepts a password against its own hash. *)
Theorem register_then_login env b w :
  status (register env b w).1 = 200 → storeUp env (register env b w).2 →
  bcrypt_compare env (shownAs (reg_password b)) (bcrypt_hash env (shownAs (reg_password b)))
  = true →
  (login env (mkLoginBody (trim (reg_username b)) (reg_password b)) (register env b w).2).1
  = mkResponse 200 (Token (jwt_sign env (trim (reg_username b)) "secret-key")).
Proof.
  intros H200 Hup Hcmp. destruct (register_200 env b w H200) as (Hv & Hf & Hpw & Heq).
  rewrite Heq in Hup |- *. cbn [snd] in *. unfold storeUp in Hup.
  rewrite login_cases, Hup. cbn [users login_username login_password].
  destruct (reg_password b) as [pw|shown]; [|discriminate Hpw]. cbn [shownAs] in *.
  assert (List.find (λ u, String.eqb (username u) (trim (reg_username b))) (users w) = None)
    as Hfu.
  { destruct (List.find (λ u, String.eqb (username u) (trim (reg_username b))) (users w))
      as [u|] eqn:Hu; [|done].
    apply List.find_some in Hu as [Hin Hb].
    pose proof (List.find_none _ _ Hf u Hin) as Hn. cbn in Hn. by rewrite Hb in Hn. }
  rewrite (find_snoc_none _ _ _ Hfu). cbn [username].
  rewrite String.eqb_refl. cbn [password username]. by rewrite Hcmp.
Qed.

Lemma register_then_login_witness :
  (login demoEnv (mkLoginBody (trim " bob ") (Str "hunter22"))
     (register demoEnv (mkRegisterBody " bob " (Str "hunter22") "bob@x.com" "Bob") aliceWorld).2).1
  = mkResponse 200 (Token (jwt_sign demoEnv (trim " bob ") "secret-key")).
Proof.
  apply (register_then_login demoEnv (mkRegisterBody " bob " (Str "hunter22") "bob@x.com" "Bob")
           aliceWorld); reflexivity.
Defined.

(** X7: POST /login does not trim: when every stored username is trimmed,
    a login whose username has whitespace around it is answered 401
    whatever the password, even with the very string that was typed at
    registration. *)
Theorem login_untrimmed_username_fails env b w :
  trimmedUsers w → trim (login_username b) ≠ login_username b → storeUp env w →
  (login env b w).1 = mkResponse 401 (Message "Invalid username or password").
Proof.
  intros Hw Hraw Hup. rewrite login_cases. unfold storeUp in Hup. rewrite Hup.
  rewrite find_none_unknown; [done|].
  unfold unknownUser, trimmedUsers in *. eapply Forall_impl; [exact Hw|].
  intros u [[Hu _] _] Heq. apply Hraw. by rewrite <- Heq.
Qed.

Lemma login_untrimmed_username_fails_witness :
  (login demoEnv (mkLoginBody " bob " (Str "hunter22"))
     (register demoEnv (mkRegisterBody " bob " (Str "hunter22") "bob@x.com" "Bob") emptyWorld).2).1
  = mkResponse 401 (Message "Invalid username or password").
Proof.
  apply (login_untrimmed_username_fails demoEnv (mkLoginBody " bob " (Str "hunter22"))
           (register demoEnv (mkRegisterBody " bob " (Str "hunter22") "bob@x.com" "Bob") emptyWorld).2).
  - unfold trimmedUsers, trimmed. vm_compute. repeat constructor; congruence.
  - vm_compute. congruence.
  - reflexivity.
Defined.


(** X21: with a password that is a string, the two failures of POST
    /login cannot be told apart: when the store answers the lookup, a
    username the store does not know and a known username with a password
    that does not match get the same response, status 401 with the
    message "Invalid username or password". *)
Theorem login_wrong_password_same_as_unknown env w1 b1 w2 b2 pw :
  storeUp env w1 → unknownUser w1 (login_username b1) →
  storeUp env w2 → login_password b2 = Str pw →
  wrongPassword env w2 (login_username b2) pw →
  (login env b1 w1).1 = (login env b2 w2).1
  ∧ (login env b1 w1).1 = mkResponse 401 (Message "Invalid username or password").
Proof.
  intros Hup1 Hunk Hup2 Hpw (u & Hfind & Hcmp). unfold storeUp in *.
  assert ((login env b1 w1).1 = mkResponse 401 (Message "Invalid username or password")) as H1.
  { rewrite login_cases, Hup1, (find_none_unknown w1 _ Hunk). reflexivity. }
  assert ((login env b2 w2).1 = mkResponse 401 (Message "Invalid username or password")) as H2.
  { rewrite login_cases, Hup2, Hfind, Hpw, Hcmp. reflexivity. }
  split; [by rewrite H1, H2 | exact H1].
Qed.

Lemma login_wrong_password_same_as_unknown_witness :
  (login demoEnv (mkLoginBody "bob" (Str "secret1")) aliceWorld).1
  = (login demoEnv (mkLoginBody "alice" (Str "secret2")) aliceWorld).1
  ∧ (login demoEnv (mkLoginBody "bob" (Str "secret1")) aliceWorld).1
    = mkResponse 401 (Message "Invalid username or password").
Proof.
  apply (login_wrong_password_same_as_unknown demoEnv aliceWorld
           (mkLoginBody "bob" (Str "secret1")) aliceWorld
           (mkLoginBody "alice" (Str "secret2")) "secret2").
  - reflexivity.
  - repeat constructor. simpl. discriminate.
  - reflexivity.
  - reflexivity.
  - exists alice. split; reflexivity.
Defined.


(** ** Further properties: the token gate, login tokens and logout *)

Lemma splitOn_word s : noSpace s = true → splitOn " " s = [s].
Proof.
  induction s as [|c s IH]; [done|]. cbn [noSpace splitOn]. intros H.
  apply andb_true_iff in H as [Hc Hs]. apply negb_true_iff in Hc. rewrite Hc, (IH Hs). done.
Qed.

Lemma splitOn_first s rest :
  noSpace s = true → splitOn " " (s +:+ " " +:+ rest) = s :: splitOn " " rest.
Proof.
  induction s as [|c s IH]; [done|]. cbn [noSpace]. intros H.
  apply andb_true_iff in H as [Hc Hs]. apply negb_true_iff in Hc.
  rewrite append_String. cbn [splitOn]. rewrite Hc, (IH Hs). done.
Qed.

Lemma authToken_second_word scheme rest :
  noSpace scheme = true →
  authToken (Some (scheme +:+ " " +:+ rest)) = head (splitOn " " rest).
Proof.
  intros H. unfold authToken. cbn [mbind option_bind]. rewrite (splitOn_first _ _ H).
  by destruct (splitOn " " rest).
Qed.

(** X8: [verifyToken] never looks at the scheme of the Authorization
    header: two headers that differ only in their first word (Bearer,
    Basic, or no word at all before the space) get the same verdict. *)
Theorem verifyToken_ignores_scheme env scheme1 scheme2 rest :
  noSpace scheme1 = true → noSpace scheme2 = true →
  verifyToken env (Some (scheme1 +:+ " " +:+ rest))
  = verifyToken env (Some (scheme2 +:+ " " +:+ rest)).
Proof.
  intros H1 H2. unfold verifyToken.
  by rewrite (authToken_second_word _ _ H1), (authToken_second_word _ _ H2).
Qed.

Lemma verifyToken_ignores_scheme_witness :
  verifyToken demoEnv (Some ("Basic" +:+ " " +:+ demoSign "alice" "secret-key"))
  = verifyToken demoEnv (Some ("Bearer" +:+ " " +:+ demoSign "alice" "secret-key")).
Proof.
  apply (verifyToken_ignores_scheme demoEnv "Basic" "Bearer" (demoSign "alice" "secret-key"));
    reflexivity.
Defined.

(** X9: the token a POST /login answers with opens the token gate: sent
    back as "Bearer <token>" it passes [verifyToken] with the username of
    the login as its claim, when [jwt.verify] accepts what [jwt.sign]
    made with the same key and the token is one word. *)
Theorem login_token_passes_gate env b w token :
  (login env b w).1 = mkResponse 200 (Token token) →
  (∀ claim, jwt_verify env (jwt_sign env claim "secret-key") "secret-key" = Some (Some claim)) →
  noSpace token = true → token ≠ EmptyString →
  verifyToken env (Some ("Bearer" +:+ " " +:+ token)) = inr (Some (login_username b)).
Proof.
  rewrite login_cases. intros Hlogin Hjwt Hword Hne.
  destruct (storeFails env (dbOps w)); [discriminate|].
  destruct (List.find _ (users w)) as [u|] eqn:Hf; [|discriminate].
  destruct (login_password b) as [pw|shown]; [|discriminate].
  destruct (bcrypt_compare env pw (password u)); [|discriminate].
  cbn [fst] in Hlogin. injection Hlogin as <-.
  apply List.find_some in Hf as [_ Hu]. apply String.eqb_eq in Hu. rewrite Hu in *.
  unfold verifyToken. rewrite authToken_second_word by done.
  rewrite (splitOn_word _ Hword). cbn [head].
  destruct (jwt_sign env (login_username b) "secret-key") eqn:Hs; [done|].
  rewrite <- Hs. by rewrite Hjwt.
Qed.

Lemma prefix_append p s : String.prefix p (p +:+ s) = true.
Proof.
  induction p as [|c p IH]; [by destruct s|].
  rewrite append_String. cbn [String.prefix]. destruct (ascii_dec c c); [exact IH | done].
Qed.

Lemma substring_whole s : ∀ m, String.length s ≤ m → String.substring 0 m s = s.
Proof.
  induction s as [|c s IH]; intros [|m] Hm; cbn in *; try done; try lia.
  f_equal. apply IH. lia.
Qed.

Lemma substring_append p s m :
  String.substring (String.length p) m (p +:+ s) = String.substring 0 m s.
Proof.
  induction p as [|c p IH]; [done|]. rewrite append_String. exact IH.
Qed.

Lemma length_append p s : String.length (p +:+ s) = String.length p + String.length s.
Proof.
  induction p as [|c p IH]; [done|]. rewrite append_String. cbn [String.length]. by rewrite IH.
Qed.

(** The concrete signing and verifying functions agree. *)
Lemma demoVerify_demoSign claim :
  demoVerify (demoSign claim "secret-key") "secret-key" = Some (Some claim).
Proof.
  unfold demoVerify, demoSign. cbv zeta.
  change ("secret-key" +:+ ":" +:+ claim)%string with (("secret-key" +:+ ":") +:+ claim)%string.
  rewrite prefix_append, substring_append, substring_whole; [done|].
  rewrite length_append. lia.
Qed.

Lemma login_token_passes_gate_witness :
  verifyToken demoEnv (Some ("Bearer" +:+ " " +:+ demoSign "alice" "secret-key"))
  = inr (Some (login_username (mkLoginBody "alice" (Str "secret1")))).
Proof.
  apply (login_token_passes_gate demoEnv (mkLoginBody "alice" (Str "secret1")) aliceWorld
           (demoSign "alice" "secret-key")).
  - reflexivity.
  - exact demoVerify_demoSign.
  - reflexivity.
  - discriminate.
Defined.

Lemma getTickets_cases env req w :
  getTickets env req w =
  match verifyToken env (fetch_authorization req) with
  | inl denied => (denied, w)
  | inr _ =>
      if storeFails env (dbOps w) then (internalError, countOp w)
      else match Ticket_page env (page req) (limit req)
                   (List.filter (λ t, String.eqb (ticketId t) (id req)) (tickets w)) with
           | Some docs => (mkResponse 200 (TicketList docs), countOp w)
           | None => (internalError, countOp w)
           end
  end.
Proof.
  unfold getTickets, tryCatch, mbind, M_bind, mret, M_ret, Ticket_find, dbCall.
  destruct (verifyToken env (fetch_authorization req)); [reflexivity|].
  destruct (storeFails env (dbOps w)); [reflexivity|]. cbn [tickets countOp].
  destruct (Ticket_page env _ _ _); reflexivity.
Qed.

(** X10: POST /login, GET /tickets/:id and POST /logout only read: after
    any of them the users and the tickets of the store are what they
    were, whatever the request and the answer. *)
Theorem reading_routes_keep_the_store env b freq authorization w :
  (users (login env b w).2 = users w ∧ tickets (login env b w).2 = tickets w)
  ∧ (users (getTickets env freq w).2 = users w ∧ tickets (getTickets env freq w).2 = tickets w)
  ∧ (logout env authorization w).2 = w.
Proof.
  split; [|split].
  - rewrite login_cases. destruct (storeFails env (dbOps w)); [done|].
    destruct (List.find _ (users w)) as [u|]; [|done].
    destruct (login_password b) as [pw|shown]; [|done].
    by destruct (bcrypt_compare env pw (password u)).
  - rewrite getTickets_cases. destruct (verifyToken env (fetch_authorization freq)); [done|].
    destruct (storeFails env (dbOps w)); [done|]. by destruct (Ticket_page env _ _ _).
  - unfold logout. destruct (verifyToken env authorization); [done|].
    by destruct (authToken authorization) as [[|c s]|].
Qed.




(** ** Further properties: the ticket routes *)

Lemma generateTicket_gridShape rnd k : gridShape (generateTicket rnd k).1.
Proof.
  destruct (generateTicket rnd k) as [g k'] eqn:Hgen. cbn [fst].
  destruct (generateTicket_columns _ _ _ _ Hgen) as (Hg & Hrows & _).
  exact (conj Hg Hrows).
Qed.

(** One turn of the loop of POST /tickets: the insert is the only thing
    that can fail, and the ticket is stored exactly when it does not. *)
Lemma createOne_outcome env w :
  ∃ t w', users w' = users w ∧ dbOps w' = S (dbOps w) ∧ gridShape (ticketData t)
    ∧ ((storeFails env (dbOps w) = true ∧ createOne env w = (Thrown, w')
        ∧ tickets w' = tickets w)
       ∨ (storeFails env (dbOps w) = false ∧ createOne env w = (Returned t, w')
          ∧ tickets w' = tickets w ++ [t])).
Proof.
  unfold createOne, mbind, M_bind, mret, M_ret, generateTicketM, generateUniqueTicketId,
    Ticket_create, dbCall.
  pose proof (generateTicket_gridShape (Math_random env) (randoms w)) as Hshape.
  destruct (generateTicket (Math_random env) (randoms w)) as [g k].
  cbn [dbOps useRandom useClock fst] in *.
  destruct (storeFails env (dbOps w)) eqn:Hup.
  - exists (mkTicket (ticketIdOf (Date_now env (clocks w)) (Math_random env k)) g).
    eexists. split; [|split; [|split; [exact Hshape|left; done]]]; done.
  - exists (mkTicket (ticketIdOf (Date_now env (clocks w)) (Math_random env k)) g).
    eexists. split; [|split; [|split; [exact Hshape|right; done]]]; done.
Qed.

Lemma verifyToken_denial env authorization denied :
  verifyToken env authorization = inl denied →
  ∃ message, denied = mkResponse 401 (Message message).
Proof.
  unfold verifyToken. destruct (authToken authorization) as [[|c s]|];
    [intros H; inversion H; eauto | | intros H; inversion H; eauto].
  destruct (jwt_verify env _ _); intros H; inversion H; eauto.
Qed.

(** Whatever the loop of POST /tickets ends with, the users are untouched,
    the tickets have only grown, by well-shaped tickets, and an array that
    is returned is what was there plus what was added. *)
Lemma ticketLoop_delta env nt fuel : ∀ i acc w out w',
  ticketLoop env fuel nt i acc w = Some (out, w') →
  users w' = users w
  ∧ ∃ added, tickets w' = tickets w ++ added
             ∧ Forall (λ t, gridShape (ticketData t)) added
             ∧ ∀ ts, out = Returned ts → ts = acc ++ added.
Proof.
  induction fuel as [|fuel IH]; intros i acc w out w' Hloop; [discriminate|].
  cbn [ticketLoop] in Hloop.
  destruct (ToNumber (StringToNumber env) nt) as [bound|].
  2: { inversion Hloop; subst. split; [done|]. exists []. rewrite app_nil_r.
       split; [done|]. split; [constructor | discriminate]. }
  destruct (lessThan i bound).
  2: { inversion Hloop; subst. split; [done|]. exists []. rewrite app_nil_r.
       split; [done|]. split; [constructor|]. intros ts Hts. inversion Hts.
       by rewrite app_nil_r. }
  destruct (createOne_outcome env w) as (t & w1 & Hu & _ & Hshape & [(_ & Hc & Ht)|(_ & Hc & Ht)]);
    rewrite Hc in Hloop.
  - inversion Hloop; subst. split; [done|]. exists []. rewrite app_nil_r.
    split; [done|]. split; [constructor | discriminate].
  - destruct (IH _ _ _ _ _ Hloop) as (Hu' & added & Hadd & Hall & Hout).
    split; [congruence|]. exists (t :: added).
    split; [by rewrite Hadd, Ht, <- (assoc_L (++))|].
    split; [by constructor|]. intros ts Hts. rewrite (Hout ts Hts).
    by rewrite <- (assoc_L (++)).
Qed.

(** X12: whatever a POST /tickets is answered, the users are untouched
    and the tickets already stored are kept, in order; what is added is a
    run of tickets with 3-by-9 grids, none when the answer is 401; and
    when the answer is 200 its array is exactly that run. *)
Theorem postTickets_answer_is_what_was_stored env fuel req w r w' :
  postTickets env fuel req w = Some (r, w') →
  users w' = users w
  ∧ ∃ added, tickets w' = tickets w ++ added
             ∧ Forall (λ t, gridShape (ticketData t)) added
             ∧ (∀ ts, r = mkResponse 200 (TicketList ts) → ts = added)
             ∧ (status r = 401 → added = []).
Proof.
  unfold postTickets. intros Hpost.
  destruct (verifyToken env (create_authorization req)) as [denied|claim] eqn:Hv.
  { destruct (verifyToken_denial _ _ _ Hv) as [message ->].
    inversion Hpost; subst. split; [done|]. exists []. rewrite app_nil_r.
    split; [done|]. split; [constructor|]. split; [discriminate | done]. }
  destruct (ticketLoop env fuel (numTickets req) 0 [] w) as [[out w1]|] eqn:Hloop;
    [|discriminate].
  destruct (ticketLoop_delta _ _ _ _ _ _ _ _ Hloop) as (Hu & added & Hadd & Hall & Hout).
  destruct out as [ts|]; inversion Hpost; subst; (split; [done|]); exists added;
    (split; [done|]); (split; [done|]); (split; [|discriminate]).
  - intros ts' Hts. inversion Hts; subst. by apply Hout.
  - discriminate.
Qed.

Lemma postTickets_answer_is_what_was_stored_witness :
  ∃ r w', postTickets demoEnv 3 (mkCreateRequest (bearer "alice") (Some (JNum (Finite 2))))
            aliceWorld = Some (r, w')
    ∧ users w' = users aliceWorld
    ∧ ∃ added, tickets w' = tickets aliceWorld ++ added
               ∧ Forall (λ t, gridShape (ticketData t)) added
               ∧ (∀ ts, r = mkResponse 200 (TicketList ts) → ts = added)
               ∧ (status r = 401 → added = []).
Proof.
  eexists _, _. split; [vm_compute; reflexivity|].
  apply (postTickets_answer_is_what_was_stored demoEnv 3
           (mkCreateRequest (bearer "alice") (Some (JNum (Finite 2)))) aliceWorld).
  vm_compute. reflexivity.
Defined.

Lemma ticketLoop_break env nt q :
  ToNumber (StringToNumber env) nt = Returned (Finite q) → (Qceiling q ≤ 2 ^ 53)%Z →
  ∀ j fuel i acc w,
    (0 ≤ i)%Z → (i + Z.of_nat j < Z.of_nat (turns q))%Z → j < fuel →
    (∀ k, dbOps w ≤ k < dbOps w + j → storeFails env k = false) →
    storeFails env (dbOps w + j) = true →
    ∃ ts w', ticketLoop env fuel nt i acc w = Some (Thrown, w')
             ∧ length ts = j ∧ tickets w' = tickets w ++ ts.
Proof.
  intros Hnt Hq. induction j as [|j IH]; intros fuel i acc w Hi HiN Hfuel Hup Hdown;
    (destruct fuel as [|fuel]; [lia|]); cbn [ticketLoop];
    rewrite Hnt, (lessThan_turns i q Hi), bool_decide_eq_true_2 by lia;
    destruct (createOne_outcome env w)
      as (t & w1 & Hu & Hd & _ & [(Hf & Hc & Ht)|(Hf & Hc & Ht)]); rewrite Hc.
  - exists [], w1. rewrite app_nil_r. split; [reflexivity | split; [reflexivity | exact Ht]].
  - rewrite Nat.add_0_r in Hdown. rewrite Hdown in Hf. discriminate Hf.
  - rewrite Hup in Hf by lia. discriminate Hf.
  - unfold increment.
    assert (i < 2 ^ 53)%Z as Hlt by (unfold turns in HiN; lia).
    destruct (Z.ltb_spec i (2 ^ 53)) as [_|?]; [|lia].
    destruct (IH fuel (i + 1)%Z (acc ++ [t]) w1) as (ts & w' & Hl & Hlen & Hts);
      [lia | lia | lia | intros k Hk; apply Hup; lia
       | replace (dbOps w1 + j) with (dbOps w + S j) by lia; exact Hdown |].
    exists (t :: ts), w'. rewrite Hl, Hts, Ht, <- !(assoc_L (++)).
    split; [reflexivity|]. split; [cbn; lia | reflexivity].
Qed.



(** X14: POST /tickets does not undo: when the store refuses an insert
    after accepting j of them, the answer is 500 and the j tickets made
    before stay in the store. *)
Theorem postTickets_failure_keeps_earlier env fuel req w q j :
  authenticated env (create_authorization req) →
  ToNumber (StringToNumber env) (numTickets req) = Returned (Finite q) →
  (Qceiling q ≤ 2 ^ 53)%Z → j < turns q → j < fuel →
  (∀ k, dbOps w ≤ k < dbOps w + j → storeFails env k = false) →
  storeFails env (dbOps w + j) = true →
  ∃ ts w', postTickets env fuel req w = Some (internalError, w')
           ∧ length ts = j ∧ tickets w' = tickets w ++ ts.
Proof.
  intros [claim Hauth] Hnt Hq Hj Hfuel Hup Hdown. unfold postTickets. rewrite Hauth.
  destruct (ticketLoop_break env _ q Hnt Hq j fuel 0%Z [] w)
    as (ts & w' & Hl & Hlen & Hts); [lia | lia | done | done | done |].
  rewrite Hl. eauto.
Qed.

Lemma postTickets_failure_keeps_earlier_witness :
  ∃ ts w', postTickets (flakyEnv 1) 4 (mkCreateRequest (bearer "alice") (Some (JNum (Finite 3))))
             aliceWorld = Some (internalError, w')
           ∧ length ts = 1 ∧ tickets w' = tickets aliceWorld ++ ts.
Proof.
  apply (postTickets_failure_keeps_earlier (flakyEnv 1) 4
           (mkCreateRequest (bearer "alice") (Some (JNum (Finite 3)))) aliceWorld 3 1).
  - by eexists.
  - reflexivity.
  - vm_compute. discriminate.
  - vm_compute. lia.
  - lia.
  - intros k Hk. cbn in *. destruct k; [reflexivity | lia].
  - reflexivity.
Defined.




(** X16: a ticket that POST /tickets answered with is found by GET
    /tickets/:id under its ticketId, and every document the fetch returns
    carries that ticketId, when the store answers the query and the
    driver's skip and limit keep the matches of this query (as page 1
    does under a limit that is not below their number). *)
Theorem created_ticket_is_found env fuel creq w ts w1 t freq :
  postTickets env fuel creq w = Some (mkResponse 200 (TicketList ts), w1) →
  t ∈ ts →
  authenticated env (fetch_authorization freq) → id freq = ticketId t →
  storeUp env w1 →
  Ticket_page env (page freq) (limit freq)
    (List.filter (λ d, String.eqb (ticketId d) (ticketId t)) (tickets w1))
  = Some (List.filter (λ d, String.eqb (ticketId d) (ticketId t)) (tickets w1)) →
  ∃ docs, (getTickets env freq w1).1 = mkResponse 200 (TicketList docs)
          ∧ t ∈ docs ∧ Forall (λ d, ticketId d = ticketId t) docs.
Proof.
  intros Hpost Hin [claim Hauth] Hid Hup Hpage.
  unfold postTickets in Hpost.
  destruct (verifyToken env (create_authorization creq)) as [denied|c] eqn:Hv.
  { destruct (verifyToken_denial _ _ _ Hv) as [message ->]. discriminate. }
  destruct (ticketLoop env fuel (numTickets creq) 0 [] w) as [[out w2]|] eqn:Hloop;
    [|discriminate].
  destruct (ticketLoop_delta _ _ _ _ _ _ _ _ Hloop) as (_ & added & Hadd & _ & Hout).
  destruct out as [ts'|]; [|discriminate]. inversion Hpost; subst ts' w2.
  rewrite (Hout ts eq_refl) in Hin. cbn [app] in Hin.
  rewrite getTickets_cases, Hauth. unfold storeUp in Hup. rewrite Hup, Hid, Hpage.
  eexists. split; [reflexivity|]. split.
  - apply list_elem_of_In, List.filter_In. split.
    + apply list_elem_of_In. rewrite Hadd. apply elem_of_app. by right.
    + apply String.eqb_refl.
  - apply Forall_forall. intros d Hd.
    apply list_elem_of_In, List.filter_In in Hd as [_ Hd].
    by apply String.eqb_eq in Hd.
Qed.

Lemma created_ticket_is_found_witness :
  ∃ t ts w1,
    postTickets demoEnv 3 (mkCreateRequest (bearer "alice") (Some (JNum (Finite 2)))) aliceWorld
    = Some (mkResponse 200 (TicketList (t :: ts)), w1)
    ∧ ∃ docs,
        (getTickets demoEnv
           (mkFetchRequest (bearer "alice") (ticketId t) (Some "1") (Some "10")) w1).1
        = mkResponse 200 (TicketList docs)
        ∧ t ∈ docs ∧ Forall (λ d, ticketId d = ticketId t) docs.
Proof.
  eexists _, _, _. split; [vm_compute; reflexivity|].
  eapply (created_ticket_is_found demoEnv 3
            (mkCreateRequest (bearer "alice") (Some (JNum (Finite 2)))) aliceWorld).
  - vm_compute. reflexivity.
  - left.
  - by eexists.
  - reflexivity.
  - reflexivity.
  - vm_compute. reflexivity.
Defined.


(** ** Further properties: the generator and the identifiers *)

Lemma aimAt_unit n : unitSource (aimAt n).
Proof.
  intros k. unfold aimAt, constSource, unitSample, Qle, Qlt. cbn [Qnum Qden].
  pose proof (Nat.mod_upper_bound (n - 1) 10). lia.
Qed.

Lemma hitsAt_cell n :
  hitsAt n = true →
  cellAt (generateTicket (aimAt n) 0).1 0 ((n - 1) / 10) = Some (Num n).
Proof.
  unfold hitsAt. generalize (cellAt (generateTicket (aimAt n) 0).1 0 ((n - 1) / 10)).
  intros [[m| |]|] H; try discriminate H. apply Nat.eqb_eq in H. by subst m.
Qed.

Lemma hitsAt_all : forallb hitsAt (seq 1 90) = true.
Proof. vm_compute. reflexivity. Qed.

(** X17: every number from 1 to 90 can be drawn: for each there is a
    random source with samples in [0, 1) under which the grid holds it, in
    the first row of the column Math.floor((n - 1) / 10). *)
Theorem every_number_can_be_drawn n :
  1 ≤ n ≤ 90 →
  ∃ rnd, unitSource rnd
         ∧ cellAt (generateTicket rnd 0).1 0 ((n - 1) / 10) = Some (Num n).
Proof.
  intros Hn. exists (aimAt n). split; [apply aimAt_unit|].
  apply hitsAt_cell. pose proof hitsAt_all as Hall.
  rewrite forallb_forall in Hall. apply Hall, in_seq. lia.
Qed.

Lemma every_number_can_be_drawn_witness :
  ∃ rnd, unitSource rnd
         ∧ cellAt (generateTicket rnd 0).1 0 ((90 - 1) / 10) = Some (Num 90).
Proof. apply (every_number_can_be_drawn 90). lia. Defined.

Lemma list_ascii_append (s1 s2 : string) :
  list_ascii_of_string (s1 +:+ s2) = list_ascii_of_string s1 ++ list_ascii_of_string s2.
Proof.
  induction s1 as [|c s1 IH]; [done|]. rewrite append_String.
  cbn [list_ascii_of_string]. by rewrite IH.
Qed.

Lemma length_list_ascii (s : string) : length (list_ascii_of_string s) = String.length s.
Proof. induction s as [|c s IH]; [done|]. cbn. by rewrite IH. Qed.

Lemma append_inj_tail (s1 s2 r1 r2 : string) :
  String.length r1 = String.length r2 → (s1 +:+ r1)%string = (s2 +:+ r2)%string →
  s1 = s2 ∧ r1 = r2.
Proof.
  intros Hlen Heq. apply (f_equal list_ascii_of_string) in Heq.
  rewrite !list_ascii_append in Heq.
  apply app_inj_2 in Heq as [H1 H2]; [|by rewrite !length_list_ascii].
  split; by apply list_ascii_inj.
Qed.

(** X18: two identifiers whose random parts both have the full five
    characters are equal only if they were made in the same millisecond
    and with the same random part: the timestamp can be read back from
    the identifier. *)
Theorem equal_ids_same_millisecond now1 sample1 now2 sample2 :
  (Z.abs now1 ≤ maxTimeValue)%Z → (Z.abs now2 ≤ maxTimeValue)%Z →
  String.length (substr 2 5 (Number_toString36 sample1)) = 5 →
  String.length (substr 2 5 (Number_toString36 sample2)) = 5 →
  ticketIdOf now1 sample1 = ticketIdOf now2 sample2 →
  now1 = now2
  ∧ substr 2 5 (Number_toString36 sample1) = substr 2 5 (Number_toString36 sample2).
Proof.
  intros H1 H2 Hl1 Hl2 Heq. unfold ticketIdOf in Heq.
  apply append_inj_tail in Heq as [Hts Hr]; [|congruence]. split; [|done].
  pose proof (timestamp_roundtrip now1 H1) as R1.
  pose proof (timestamp_roundtrip now2 H2) as R2.
  rewrite Hts in R1. congruence.
Qed.

Lemma equal_ids_same_millisecond_witness :
  1700000000000%Z = 1700000000000%Z
  ∧ substr 2 5 (Number_toString36 (1 # 1048576)) = substr 2 5 (Number_toString36 (1 # 1048576)).
Proof.
  apply (equal_ids_same_millisecond 1700000000000 (1 # 1048576) 1700000000000 (1 # 1048576)).
  - vm_compute. discriminate.
  - vm_compute. discriminate.
  - vm_compute. reflexivity.
  - vm_compute. reflexivity.
  - reflexivity.
Defined.


(** *** The index of a draw in double arithmetic *)

(** X22: the index [Math.floor(Math.random() * n)] as the doubles
    compute it: for a sample that is a double in [0, 1), so at most
    1 - 2^-53, and an array of any length n > 0, the product rounded to
    the nearest double is still below n, and the index lies in 0 .. n-1:
    rounding never makes [splice] miss the array. *)
Theorem index_in_range_in_doubles (r : Q) (n : nat) :
  doubleBelowOne r → 0 < n →
  (0 ≤ Math_floor (toDouble (r * inject_Z (Z.of_nat n))) < Z.of_nat n)%Z
  ∧ ∀ arr : list nat, length arr = n →
      ∃ x, (splice1 arr (Math_floor (toDouble (r * inject_Z (Z.of_nat n))))).1 = Some x.
Proof.
  intros [Hr0 Hr1] Hn. pose proof (double_index_range r n Hr0 Hr1 Hn) as Hrange.
  split; [exact Hrange|]. intros arr Harr.
  destruct (splice1_index arr (Math_floor (toDouble (r * inject_Z (Z.of_nat n)))))
    as (i & -> & Hi).
  cbn [fst]. apply lookup_lt_is_Some_2, Hi. by rewrite Harr.
Qed.

Lemma index_in_range_in_doubles_witness :
  (0 ≤ Math_floor (toDouble ((1 - Qpower 2 (-53)) * inject_Z (Z.of_nat 10))) < Z.of_nat 10)%Z
  ∧ ∀ arr : list nat, length arr = 10 →
      ∃ x, (splice1 arr (Math_floor (toDouble ((1 - Qpower 2 (-53)) * inject_Z (Z.of_nat 10))))).1
           = Some x.
Proof.
  apply (index_in_range_in_doubles (1 - Qpower 2 (-53)) 10).
  - split; [vm_compute; discriminate | apply Qle_refl].
  - lia.
Defined.


(** ** Further properties: malformed headers and colliding identifiers *)

(** X19: the gate takes the second word of the header and nothing else: a
    header of one word (the bare token, without a scheme) and a header
    with two spaces after its first word are both refused with "Access
    denied. No token provided", however valid the token in them is. *)
Theorem verifyToken_needs_second_word env word rest :
  noSpace word = true →
  verifyToken env (Some word)
  = inl (mkResponse 401 (Message "Access denied. No token provided"))
  ∧ verifyToken env (Some (word +:+ " " +:+ " " +:+ rest))
    = inl (mkResponse 401 (Message "Access denied. No token provided")).
Proof.
  intros Hword. unfold verifyToken. split.
  - unfold authToken. cbn [mbind option_bind]. by rewrite (splitOn_word _ Hword).
  - rewrite (authToken_second_word _ _ Hword).
    change (" " +:+ rest)%string with (String " " rest). reflexivity.
Qed.

Lemma verifyToken_needs_second_word_witness :
  verifyToken demoEnv (Some (demoSign "alice" "secret-key"))
  = inl (mkResponse 401 (Message "Access denied. No token provided"))
  ∧ verifyToken demoEnv
      (Some (demoSign "alice" "secret-key" +:+ " " +:+ " " +:+ demoSign "alice" "secret-key"))
    = inl (mkResponse 401 (Message "Access denied. No token provided")).
Proof.
  apply (verifyToken_needs_second_word demoEnv (demoSign "alice" "secret-key")
           (demoSign "alice" "secret-key")).
  reflexivity.
Defined.

(** One accepted turn of the loop, in full: the identifier is made from
    the clock reading and from the sample that follows the 27 of the
    grid. *)
Lemma createOne_stored env w :
  storeFails env (dbOps w) = false →
  ∃ t w', createOne env w = (Returned t, w')
    ∧ ticketId t = ticketIdOf (Date_now env (clocks w)) (Math_random env (randoms w + 27))
    ∧ tickets w' = tickets w ++ [t]
    ∧ randoms w' = randoms w + 28 ∧ clocks w' = S (clocks w) ∧ dbOps w' = S (dbOps w).
Proof.
  intros Hup.
  unfold createOne, mbind, M_bind, mret, M_ret, generateTicketM, generateUniqueTicketId,
    Ticket_create, dbCall.
  pose proof (generateTicket_calls (Math_random env) (randoms w)) as Hk.
  destruct (generateTicket (Math_random env) (randoms w)) as [g k].
  cbn [dbOps useRandom useClock fst snd clocks randoms] in *. rewrite Hup. subst k.
  eexists _, _. split; [reflexivity|]. cbn [ticketId tickets randoms clocks dbOps countOp].
  split; [reflexivity|]. split; [reflexivity|]. split; [|split; reflexivity].
  cbn [randoms useRandom useClock]. lia.
Qed.

(** X20: identifiers are not kept unique: when two successive tickets of
    one POST /tickets are made under the same clock reading and with the
    same sample, they get the same ticketId, and both are stored: the
    ticket schema has no unique index to refuse the second. *)
Theorem same_reading_same_id env fuel req w :
  authenticated env (create_authorization req) →
  numTickets req = Some (JNum (Finite 2)) → 2 < fuel →
  storeFails env (dbOps w) = false → storeFails env (S (dbOps w)) = false →
  Date_now env (S (clocks w)) = Date_now env (clocks w) →
  Math_random env (randoms w + 55) = Math_random env (randoms w + 27) →
  ∃ t1 t2 w', postTickets env fuel req w = Some (mkResponse 200 (TicketList [t1; t2]), w')
              ∧ ticketId t1 = ticketId t2
              ∧ tickets w' = tickets w ++ [t1; t2].
Proof.
  intros [claim Hauth] Hnt Hfuel Hup1 Hup2 Hclock Hsample.
  unfold postTickets. rewrite Hauth, Hnt.
  destruct fuel as [|[|[|fuel]]]; try lia.
  destruct (createOne_stored env w Hup1) as (t1 & w1 & Hc1 & Hid1 & Ht1 & Hr1 & Hk1 & Hd1).
  assert (storeFails env (dbOps w1) = false) as Hup2' by (rewrite Hd1; exact Hup2).
  destruct (createOne_stored env w1 Hup2') as (t2 & w2 & Hc2 & Hid2 & Ht2 & _).
  exists t1, t2, w2.
  cbn [ticketLoop ToNumber throwsOnToPrimitive elementNumber].
  change (lessThan 0 (Finite 2)) with true. cbv iota. rewrite Hc1.
  change (lessThan (increment 0) (Finite 2)) with true. cbv iota. rewrite Hc2.
  change (lessThan (increment (increment 0)) (Finite 2)) with false. cbv iota.
  split; [reflexivity|]. split.
  - rewrite Hid1, Hid2, Hk1, Hr1, Hclock.
    replace (randoms w + 28 + 27) with (randoms w + 55) by lia. by rewrite Hsample.
  - rewrite Ht2, Ht1, <- (assoc_L (++)). reflexivity.
Qed.

Lemma same_reading_same_id_witness :
  ∃ t1 t2 w',
    postTickets frozenEnv 3 (mkCreateRequest (bearer "alice") (Some (JNum (Finite 2)))) aliceWorld
    = Some (mkResponse 200 (TicketList [t1; t2]), w')
    ∧ ticketId t1 = ticketId t2
    ∧ tickets w' = tickets aliceWorld ++ [t1; t2].
Proof.
  apply (same_reading_same_id frozenEnv 3
           (mkCreateRequest (bearer "alice") (Some (JNum (Finite 2)))) aliceWorld).
  - by eexists.
  - reflexivity.
  - lia.
  - reflexivity.
  - reflexivity.
  - reflexivity.
  - reflexivity.
Defined.
